(** * ParamEditor: the parameter store and the model it exports

    A shallow embedding of [src/salesup-test-task/src/App.tsx] (the
    [ParamEditor] component and the types it uses).

    JavaScript arrays and objects have identity: two variables can name
    the same array, and a write through one is seen through the other.
    The embedding therefore keeps every array and object in a heap of
    cells addressed by references; the component's props and state hold
    references, as they do in the source. *)

From stdpp Require Import gmap strings list fin_maps.

Local Open Scope Z_scope.

(** ** Data model (interfaces [Param], [ParamValue], [Color], [Model],
       [Props], [State]) *)

(** A reference to a heap cell. *)
Abbreviation loc := positive.

(** [type: "string"]: the only variant the source declares. *)
Inductive ParamType : Type := TString.

Record Param : Type := mkParam {
  id : Z;
  name : string;
  type : ParamType
}.

(** [paramId] is a JavaScript number that holds an integer id; [===] on
    such numbers is equality of integers. *)
Record ParamValue : Type := mkParamValue {
  paramId : Z;
  value : string
}.

(** [Color] has fields [id] and [name] in the source; they are prefixed
    here because [Param] already owns those names. *)
Record Color : Type := mkColor {
  color_id : Z;
  color_name : string
}.

(** A [Model] object: both fields hold array references. *)
Record Model : Type := mkModel {
  paramValues : loc;
  colors : loc
}.

(** [Props]: [params] is only read, and is kept by value; [model] is a
    reference to the caller's [Model] object. *)
Record Props : Type := mkProps {
  params : list Param;
  model : loc
}.

(** [State] has the single field [paramValues]; it is named
    [st_paramValues] because [Model] owns the plain name. *)
Record State : Type := mkState {
  st_paramValues : loc
}.

(** A mounted component: [this.props] and [this.state]. *)
Record ParamEditor : Type := mkParamEditor {
  props : Props;
  state : State
}.

(** ** The heap *)

Inductive cell : Type :=
| CParamValue (o : ParamValue)      (* an object { paramId, value } *)
| CColor (o : Color)                (* an object { id, name } *)
| CModel (o : Model)                (* an object { paramValues, colors } *)
| CArray (elems : list loc).        (* an array of object references *)

Abbreviation heap := (gmap loc cell).

(** *** Reading *)

Definition get_array (h : heap) (l : loc) : option (list loc) :=
  match h !! l with
  | Some (CArray elems) => Some elems
  | _ => None
  end.

Definition get_paramValue (h : heap) (l : loc) : option ParamValue :=
  match h !! l with
  | Some (CParamValue o) => Some o
  | _ => None
  end.

Definition get_color (h : heap) (l : loc) : option Color :=
  match h !! l with
  | Some (CColor o) => Some o
  | _ => None
  end.

Definition get_model (h : heap) (l : loc) : option Model :=
  match h !! l with
  | Some (CModel o) => Some o
  | _ => None
  end.

(** *** Heap-changing computations *)

Definition M (A : Type) : Type := heap → option (A * heap).

Definition ret {A} (a : A) : M A := λ h, Some (a, h).

Definition bind {A B} (c : M A) (k : A → M B) : M B :=
  λ h, match c h with
       | Some (a, h') => k a h'
       | None => None
       end.

Notation "x <- c ;; k" := (bind c (λ x, k))
  (at level 100, c at next level, right associativity).
Notation "c ;;; k" := (bind c (λ _, k))
  (at level 100, right associativity).

(** A computation that only reads the heap. *)
Definition reading {A} (f : heap → option A) : M A :=
  λ h, match f h with
       | Some a => Some (a, h)
       | None => None
       end.

(** An object or array literal: a cell at a reference not yet in use. *)
Definition alloc (c : cell) : M loc :=
  λ h, let l := fresh (dom h) in Some (l, <[l := c]> h).

Definition write (l : loc) (c : cell) : M unit :=
  λ h, Some (tt, <[l := c]> h).

(** ** Array operations of the JavaScript library *)

(** [a.findIndex(p)]: the index of the first element satisfying [p],
    or [-1]. *)
Fixpoint findIndex_from {A} (p : A → bool) (k : Z) (l : list A) : Z :=
  match l with
  | [] => -1
  | x :: l' => if p x then k else findIndex_from p (k + 1) l'
  end.

Definition findIndex {A} (p : A → bool) (l : list A) : Z :=
  findIndex_from p 0 l.

(** [a.find(p)] is [List.find]: the first element satisfying [p], or
    [None] for [undefined]. *)

(** [[...a]]: a new array with the same elements (the element objects
    are shared, not copied). *)
Definition spread (a : loc) : M loc :=
  elems <- reading (λ h, get_array h a) ;;
  alloc (CArray elems).

(** [a.push(x)]. *)
Definition array_push (a : loc) (x : loc) : M unit :=
  elems <- reading (λ h, get_array h a) ;;
  write a (CArray (elems ++ [x])).

(** [a[i] = x] for an index inside the array.  Beyond the length
    JavaScript would grow the array and leave holes, which an array of
    references cannot hold; the computation stops there.
    [handleParamChange] only passes an index found by [findIndex], which
    is inside the array ([findIndex_range]). *)
Definition array_set (a : loc) (i : nat) (x : loc) : M unit :=
  elems <- reading (λ h, get_array h a) ;;
  if bool_decide (i < length elems)%nat
  then write a (CArray (<[i := x]> elems))
  else λ _, None.

(** ** The component *)

(** The callback [(parameterValue) => parameterValue.paramId === paramId]
    applied to an element reference.  On an object without a [paramId]
    field the comparison is [undefined === paramId], which is false. *)
Definition has_paramId (h : heap) (pid : Z) (parameterValue : loc) : bool :=
  match get_paramValue h parameterValue with
  | Some o => bool_decide (paramId o = pid)
  | None => false
  end.

(** [constructor(props)]. *)
Definition constructor (p : Props) : M ParamEditor :=
  m <- reading (λ h, get_model h (model p)) ;;
  a <- spread (paramValues m) ;;
  ret {| props := p; state := {| st_paramValues := a |} |}.

(** [handleParamChange(paramId, value)]: React applies the updater
    passed to [setState] to the previous state and installs the state it
    returns. *)
Definition handleParamChange (pid : Z) (val : string) (e : ParamEditor)
  : M ParamEditor :=
  let prevState := state e in
  indexExistingValue <-
    reading (λ h, elems ← get_array h (st_paramValues prevState);
                  Some (findIndex (has_paramId h pid) elems)) ;;
  updatedValues <- spread (st_paramValues prevState) ;;
  (if bool_decide (indexExistingValue ≠ -1)
   then
     entry <- alloc (CParamValue {| paramId := pid; value := val |}) ;;
     array_set updatedValues (Z.to_nat indexExistingValue) entry
   else
     entry <- alloc (CParamValue {| paramId := pid; value := val |}) ;;
     array_push updatedValues entry) ;;;
  ret {| props := props e; state := {| st_paramValues := updatedValues |} |}.

(** [getModel()]: a new object with the fields of [this.props.model],
    [paramValues] overridden by the state's array reference. *)
Definition getModel (e : ParamEditor) : M loc :=
  m <- reading (λ h, get_model h (model (props e))) ;;
  alloc (CModel {| paramValues := st_paramValues (state e);
                   colors := colors m |}).

(** [getParamValue(paramId)]; it only reads. *)
Definition getParamValue (pid : Z) (e : ParamEditor) (h : heap)
  : option string :=
  elems ← get_array h (st_paramValues (state e));
  match find (has_paramId h pid) elems with
  | Some parameterValue => value <$> get_paramValue h parameterValue
  | None => Some ""
  end.

(** A series of edits, each seeing the state the one before it left. *)
Fixpoint updates (us : list (Z * string)) (e : ParamEditor) : M ParamEditor :=
  match us with
  | [] => ret e
  | (pid, val) :: us' => e' <- handleParamChange pid val e ;; updates us' e'
  end.

(** ** What a heap holds, read as values *)

(** The entries of an array of [ParamValue] objects, in order. *)
Definition array_values (h : heap) (a : loc) : option (list ParamValue) :=
  elems ← get_array h a; mapM (get_paramValue h) elems.

Definition array_colors (h : heap) (a : loc) : option (list Color) :=
  elems ← get_array h a; mapM (get_color h) elems.

(** The entries the component's state holds. *)
Definition store_values (h : heap) (e : ParamEditor)
  : option (list ParamValue) :=
  array_values h (st_paramValues (state e)).

(** The content of a [Model] object, which is what the harness compares
    when it puts two models through [JSON.stringify]. *)
Definition model_value (h : heap) (m : loc)
  : option (list ParamValue * list Color) :=
  o ← get_model h m;
  vs ← array_values h (paramValues o);
  cs ← array_colors h (colors o);
  Some (vs, cs).

(** ** The caller's side *)

(** One object literal per element of a list. *)
Fixpoint alloc_all {A} (mk : A → cell) (xs : list A) : M (list loc) :=
  match xs with
  | [] => ret []
  | x :: xs' => l <- alloc (mk x) ;; ls <- alloc_all mk xs' ;; ret (l :: ls)
  end.

(** A model literal such as [testModel] in [App]. *)
Definition new_model (vs : list ParamValue) (cs : list Color) : M loc :=
  os <- alloc_all CParamValue vs ;;
  a <- alloc (CArray os) ;;
  ks <- alloc_all CColor cs ;;
  c <- alloc (CArray ks) ;;
  alloc (CModel {| paramValues := a; colors := c |}).

(** [<ParamEditor params={ps} model={m} />]. *)
Definition mount (ps : list Param) (m : loc) : M ParamEditor :=
  constructor {| params := ps; model := m |}.

(** A caller holding a [Model] object [r] runs
    [r.paramValues.push(o)]. *)
Definition caller_pushes (r : loc) (o : ParamValue) : M unit :=
  m <- reading (λ h, get_model h r) ;;
  x <- alloc (CParamValue o) ;;
  array_push (paramValues m) x.

(** The data of [App]. *)
Definition testParameters : list Param :=
  [ {| id := 1; name := "Назначение"; type := TString |};
    {| id := 2; name := "Длина"; type := TString |};
    {| id := 3; name := "Материал"; type := TString |} ].

Definition testValues : list ParamValue :=
  [ {| paramId := 1; value := "повседневное" |};
    {| paramId := 2; value := "макси" |} ].

(** [App] from start to finish: build the model, mount the component,
    apply the edits, take the model from [getModel] and read its
    content. *)
Definition scenario (us : list (Z * string))
  : option (list ParamValue * list Color) :=
  match (m <- new_model testValues [] ;;
         e <- mount testParameters m ;;
         e' <- updates us e ;;
         r <- getModel e' ;;
         reading (λ h, model_value h r)) ∅ with
  | Some (v, _) => Some v
  | None => None
  end.

(** [App] just before the component mounts: the model literal has
    been built in an empty heap. *)
Definition test_model : loc :=
  match new_model testValues [] ∅ with
  | Some (m, _) => m
  | None => 1%positive
  end.

Definition test_model_heap : heap :=
  match new_model testValues [] ∅ with
  | Some (_, h) => h
  | None => ∅
  end.

Definition test_props : Props :=
  {| params := testParameters; model := test_model |}.

(** [App] once the component has mounted. *)
Definition test_editor : ParamEditor :=
  match constructor test_props test_model_heap with
  | Some (e, _) => e
  | None => {| props := test_props; state := {| st_paramValues := 1%positive |} |}
  end.

Definition test_heap : heap :=
  match constructor test_props test_model_heap with
  | Some (_, h) => h
  | None => ∅
  end.

(** ** The operations read on values

    The updater of [handleParamChange] and the search of [getParamValue]
    as they act on the entries themselves, the identity of arrays and
    objects forgotten.  [handleParamChange_values] and
    [getParamValue_values] below show that the heap operations compute
    exactly these. *)

Definition entry_has (pid : Z) (o : ParamValue) : bool :=
  bool_decide (paramId o = pid).

Definition updater (pid : Z) (val : string) (prev : list ParamValue)
  : list ParamValue :=
  let indexExistingValue := findIndex (entry_has pid) prev in
  if bool_decide (indexExistingValue ≠ -1)
  then <[Z.to_nat indexExistingValue := {| paramId := pid; value := val |}]> prev
  else prev ++ [ {| paramId := pid; value := val |} ].

Definition read_value (pid : Z) (vs : list ParamValue) : string :=
  match find (entry_has pid) vs with
  | Some parameterValue => value parameterValue
  | None => ""
  end.

Definition updaters (us : list (Z * string)) (vs : list ParamValue)
  : list ParamValue :=
  foldl (λ acc u, updater u.1 u.2 acc) vs us.

(** ** Vocabulary of the properties *)

(** The ids of a list in the order in which each is first seen. *)
Definition first_seen (ids : list Z) : list Z :=
  foldl (λ acc i, if decide (i ∈ acc) then acc else acc ++ [i]) [] ids.

(** The value most recently written for [pid] in a history of writes,
    oldest first. *)
Definition last_written (pid : Z) (ws : list (Z * string)) : option string :=
  foldl (λ acc w, if decide (w.1 = pid) then Some w.2 else acc) None ws.

(** ** Rendering *)

(** The component [ParamInput]: its props and the handler it puts on
    its input. *)
Module ParamInput.

Record Props : Type := mkProps {
  param : Param;
  value : string;
  onChange : Z → string → ParamEditor → M ParamEditor
}.

(** [handleInputChange(e)], given [e.target.value]. *)
Definition handleInputChange (p : Props) (target_value : string)
  : ParamEditor → M ParamEditor :=
  onChange p (id (param p)) target_value.

End ParamInput.

(** An element [<ParamInput key=... param=... value=... onChange=... />]. *)
Record Element : Type := mkElement {
  key : Z;
  element_props : ParamInput.Props
}.

(** [render()] of [ParamEditor]: the elements of the list
    [params.map(...)]; the headings around it are fixed text. *)
Definition render (e : ParamEditor) (h : heap) : option (list Element) :=
  mapM (λ parameter,
          v ← getParamValue (id parameter) e h;
          Some {| key := id parameter;
                  element_props :=
                    {| ParamInput.param := parameter;
                       ParamInput.value := v;
                       ParamInput.onChange := handleParamChange |} |})
       (params (props e)).

(** The same list built from the entries. *)
Definition render_values (ps : list Param) (vs : list ParamValue)
  : list Element :=
  (λ parameter,
     {| key := id parameter;
        element_props :=
          {| ParamInput.param := parameter;
             ParamInput.value := read_value (id parameter) vs;
             ParamInput.onChange := handleParamChange |} |}) <$> ps.

(** ** The harness's check for a new parameter *)

(** The callback of [some] in [checkAfterEdit],
    [(parameter) => parameter.paramId === 3 && parameter.value.length > 0],
    applied to an element reference and to an entry. *)
Definition is_new_param (h : heap) (parameter : loc) : bool :=
  match get_paramValue h parameter with
  | Some o => bool_decide (paramId o = 3)
              && bool_decide (0 < String.length (value o))%nat
  | None => false
  end.

Definition entry_is_new_param (o : ParamValue) : bool :=
  bool_decide (paramId o = 3) && bool_decide (0 < String.length (value o))%nat.

(** [updatedModel.paramValues.some(...)]; [some] is [existsb]. *)
Definition newParameterAdded (updatedModel : loc) (h : heap) : option bool :=
  m ← get_model h updatedModel;
  elems ← get_array h (paramValues m);
  Some (existsb (is_new_param h) elems).

(** ** The harness [App] *)

(** The state [testsResult]; [None] is [null]. *)
Record TestsResult : Type := mkTestsResult {
  initial : option loc;
  afterEdit : option loc;
  initialVsAfterEdit : bool;
  hasNewParam : bool
}.

(** The one message [App] shows with [alert], the instruction to change
    the fields and press the second button. *)
Inductive Alert : Type := ChangeFieldsThenCheck.

(** [App] between two events: [editorRef.current] ([None] until the
    component has mounted), the state [testsResult], and the alerts
    shown so far. *)
Record App : Type := mkApp {
  editorRef : option ParamEditor;
  testsResult : TestsResult;
  alerts : list Alert
}.

(** The argument of [useState]. *)
Definition initialTestsResult : TestsResult :=
  {| initial := None; afterEdit := None;
     initialVsAfterEdit := false; hasNewParam := false |}.

(** [startInitialTests()]. *)
Definition startInitialTests (a : App) : M App :=
  match editorRef a with
  | None => ret a
  | Some editor =>
      initialResult <- getModel editor ;;
      let prevResult := testsResult a in
      ret {| editorRef := editorRef a;
             testsResult :=
               {| initial := Some initialResult;
                  afterEdit := afterEdit prevResult;
                  initialVsAfterEdit := initialVsAfterEdit prevResult;
                  hasNewParam := hasNewParam prevResult |};
             alerts := alerts a ++ [ChangeFieldsThenCheck] |}
  end.

(** [checkAfterEdit()].  [JSON.stringify] belongs to the JavaScript
    library; it is a parameter here, a function of the heap and of the
    object it is given. *)
Definition checkAfterEdit (JSON_stringify : heap → loc → string) (a : App)
  : M App :=
  match editorRef a, initial (testsResult a) with
  | Some editor, Some initialModel =>
      updatedModel <- getModel editor ;;
      modelChanged <-
        reading (λ h, Some (bool_decide (JSON_stringify h initialModel
                                         ≠ JSON_stringify h updatedModel))) ;;
      added <- reading (newParameterAdded updatedModel) ;;
      let prevResult := testsResult a in
      ret {| editorRef := editorRef a;
             testsResult :=
               {| initial := initial prevResult;
                  afterEdit := Some updatedModel;
                  initialVsAfterEdit := modelChanged;
                  hasNewParam := added |};
             alerts := alerts a |}
  | _, _ => ret a
  end.

(** An edit as [App] sees it: the component behind [editorRef] takes
    the state [handleParamChange] gives it. *)
Definition edit_mounted (pid : Z) (val : string) (a : App) : M App :=
  match editorRef a with
  | None => ret a
  | Some editor =>
      editor' <- handleParamChange pid val editor ;;
      ret {| editorRef := Some editor';
             testsResult := testsResult a;
             alerts := alerts a |}
  end.

(** [App] with the component mounted and no button pressed yet. *)
Definition test_app : App :=
  {| editorRef := Some test_editor;
     testsResult := initialTestsResult;
     alerts := [] |}.




(** ** More of the caller's side *)

(** A caller holding a [Model] object [r] runs
    [r.paramValues[i].value = v]. *)
Definition caller_sets_value (r : loc) (i : nat) (v : string) : M unit :=
  m <- reading (λ h, get_model h r) ;;
  elems <- reading (λ h, get_array h (paramValues m)) ;;
  l <- reading (λ _, elems !! i) ;;
  o <- reading (λ h, get_paramValue h l) ;;
  write l (CParamValue {| paramId := paramId o; value := v |}).

(** * Facts about the array operations *)

Section FindIndex.
Context {A : Type} (p : A → bool).

Lemma findIndex_from_spec (l : list A) (k : Z) :
  (findIndex_from p k l = -1 ∧ Forall (λ x, p x = false) l) ∨
  (∃ (i : nat) (x : A),
      findIndex_from p k l = k + Z.of_nat i ∧ l !! i = Some x ∧
      p x = true ∧ Forall (λ y, p y = false) (take i l)).
Proof.
  revert k. induction l as [|x l IH]; intros k; simpl.
  - left. split; [done | constructor].
  - destruct (p x) eqn:Hx.
    + right. exists 0%nat, x. repeat split; [lia | done | constructor].
    + destruct (IH (k + 1)) as [[E F] | (i & y & E & L & Py & F)].
      * left. split; [done | by constructor].
      * right. exists (S i), y. repeat split; [lia | done | done |].
        simpl. by constructor.
Qed.

Lemma findIndex_spec (l : list A) :
  (findIndex p l = -1 ∧ Forall (λ x, p x = false) l) ∨
  (∃ (i : nat) (x : A),
      findIndex p l = Z.of_nat i ∧ l !! i = Some x ∧
      p x = true ∧ Forall (λ y, p y = false) (take i l)).
Proof.
  unfold findIndex.
  destruct (findIndex_from_spec l 0) as [? | (i & x & E & ?)]; [by left |].
  right. exists i, x. by rewrite E.
Qed.

(** The index [findIndex] returns is [-1] or lies inside the array. *)
Lemma findIndex_range (l : list A) :
  findIndex p l = -1 ∨ 0 ≤ findIndex p l < Z.of_nat (length l).
Proof.
  destruct (findIndex_spec l) as [[E _] | (i & x & E & L & _)]; [by left |].
  right. apply lookup_lt_Some in L. lia.
Qed.

Lemma findIndex_none (l : list A) :
  Forall (λ x, p x = false) l → findIndex p l = -1.
Proof.
  intros F. destruct (findIndex_spec l) as [[E _] | (i & x & E & L & Px & _)];
    [done |].
  apply list_elem_of_lookup_2 in L.
  rewrite Forall_forall in F. specialize (F _ L). congruence.
Qed.

Lemma findIndex_first (l : list A) (i : nat) (x : A) :
  l !! i = Some x → p x = true →
  Forall (λ y, p y = false) (take i l) →
  findIndex p l = Z.of_nat i.
Proof.
  intros L Px F.
  destruct (findIndex_spec l) as [[E G] | (j & y & E & Lj & Py & Fj)].
  - apply list_elem_of_lookup_2 in L.
    rewrite Forall_forall in G. specialize (G _ L). congruence.
  - rewrite E. f_equal.
    destruct (Nat.lt_trichotomy i j) as [Hlt | [-> | Hgt]]; [| done |].
    + rewrite Forall_forall in Fj.
      assert (x ∈ take j l) as Hin.
      { apply list_elem_of_lookup. exists i. by rewrite lookup_take_lt. }
      specialize (Fj _ Hin). congruence.
    + rewrite Forall_forall in F.
      assert (y ∈ take i l) as Hin.
      { apply list_elem_of_lookup. exists j. by rewrite lookup_take_lt. }
      specialize (F _ Hin). congruence.
Qed.

(** [find] stops at the same element as [findIndex]. *)
Lemma find_spec (l : list A) :
  (find p l = None ∧ Forall (λ x, p x = false) l) ∨
  (∃ (i : nat) (x : A),
      find p l = Some x ∧ l !! i = Some x ∧
      p x = true ∧ Forall (λ y, p y = false) (take i l)).
Proof.
  induction l as [|x l IH]; simpl.
  - left. split; [done | constructor].
  - destruct (p x) eqn:Hx.
    + right. exists 0%nat, x. repeat split; [done | constructor].
    + destruct IH as [[E F] | (i & y & E & L & Py & F)].
      * left. split; [done | by constructor].
      * right. exists (S i), y. repeat split; [done | done | done |].
        simpl. by constructor.
Qed.

Lemma find_none (l : list A) :
  Forall (λ x, p x = false) l → find p l = None.
Proof.
  induction 1 as [|x l Hx _ IH]; simpl; [done |]. by rewrite Hx.
Qed.

Lemma find_first (l : list A) (i : nat) (x : A) :
  l !! i = Some x → p x = true →
  Forall (λ y, p y = false) (take i l) →
  find p l = Some x.
Proof.
  revert i. induction l as [|y l IH]; intros [|i] L Px F; simpl in *;
    try done.
  - simplify_eq. by rewrite Px.
  - apply Forall_cons in F as [Hy F]. rewrite Hy. by apply (IH i).
Qed.
End FindIndex.

(** * Facts about the heap *)

Section Heap.
Implicit Types (h : heap) (l a : loc) (elems : list loc).

Lemma fresh_unused h : h !! fresh (dom h) = None.
Proof. apply not_elem_of_dom, is_fresh. Qed.

Lemma alloc_extends h c : h ⊆ <[fresh (dom h) := c]> h.
Proof. apply insert_subseteq, fresh_unused. Qed.

Lemma get_array_weaken h h' a elems :
  h ⊆ h' → get_array h a = Some elems → get_array h' a = Some elems.
Proof.
  unfold get_array. intros Hs E.
  destruct (h !! a) as [c|] eqn:L; [|done].
  by rewrite (lookup_weaken _ _ _ _ L Hs).
Qed.

Lemma get_paramValue_weaken h h' l o :
  h ⊆ h' → get_paramValue h l = Some o → get_paramValue h' l = Some o.
Proof.
  unfold get_paramValue. intros Hs E.
  destruct (h !! l) as [c|] eqn:L; [|done].
  by rewrite (lookup_weaken _ _ _ _ L Hs).
Qed.

Lemma get_color_weaken h h' l o :
  h ⊆ h' → get_color h l = Some o → get_color h' l = Some o.
Proof.
  unfold get_color. intros Hs E.
  destruct (h !! l) as [c|] eqn:L; [|done].
  by rewrite (lookup_weaken _ _ _ _ L Hs).
Qed.

Lemma get_model_weaken h h' l o :
  h ⊆ h' → get_model h l = Some o → get_model h' l = Some o.
Proof.
  unfold get_model. intros Hs E.
  destruct (h !! l) as [c|] eqn:L; [|done].
  by rewrite (lookup_weaken _ _ _ _ L Hs).
Qed.

Lemma get_array_insert h a elems : get_array (<[a := CArray elems]> h) a = Some elems.
Proof. unfold get_array. by rewrite lookup_insert_eq. Qed.

Lemma get_array_insert_ne h a l c :
  l ≠ a → get_array (<[l := c]> h) a = get_array h a.
Proof. intros. unfold get_array. by rewrite lookup_insert_ne. Qed.

Lemma get_paramValue_insert h l o :
  get_paramValue (<[l := CParamValue o]> h) l = Some o.
Proof. unfold get_paramValue. by rewrite lookup_insert_eq. Qed.

Lemma get_array_is_Some h a elems : get_array h a = Some elems → is_Some (h !! a).
Proof. unfold get_array. destruct (h !! a); [eauto | done]. Qed.

(** Reading an array as values. *)
Lemma array_values_Some h a vs :
  array_values h a = Some vs ↔
  ∃ elems, get_array h a = Some elems ∧
           Forall2 (λ l o, get_paramValue h l = Some o) elems vs.
Proof.
  unfold array_values. split.
  - destruct (get_array h a) as [elems|]; simpl; [|done].
    intros E%mapM_Some. eauto.
  - intros (elems & -> & F). simpl. by apply mapM_Some.
Qed.

Lemma array_colors_Some h a cs :
  array_colors h a = Some cs ↔
  ∃ elems, get_array h a = Some elems ∧
           Forall2 (λ l o, get_color h l = Some o) elems cs.
Proof.
  unfold array_colors. split.
  - destruct (get_array h a) as [elems|]; simpl; [|done].
    intros E%mapM_Some. eauto.
  - intros (elems & -> & F). simpl. by apply mapM_Some.
Qed.

(** Cells are never lost when the heap grows, so neither is what can
    be read from them. *)
Lemma array_values_weaken h h' a vs :
  h ⊆ h' → array_values h a = Some vs → array_values h' a = Some vs.
Proof.
  intros Hs (elems & Ha & F)%array_values_Some.
  apply array_values_Some. exists elems. split.
  - by eapply get_array_weaken.
  - eapply Forall2_impl; [exact F |]. intros l o. by apply get_paramValue_weaken.
Qed.

Lemma array_colors_weaken h h' a cs :
  h ⊆ h' → array_colors h a = Some cs → array_colors h' a = Some cs.
Proof.
  intros Hs (elems & Ha & F)%array_colors_Some.
  apply array_colors_Some. exists elems. split.
  - by eapply get_array_weaken.
  - eapply Forall2_impl; [exact F |]. intros l o. by apply get_color_weaken.
Qed.

Lemma model_value_weaken h h' m v :
  h ⊆ h' → model_value h m = Some v → model_value h' m = Some v.
Proof.
  unfold model_value. intros Hs E.
  destruct (get_model h m) as [o|] eqn:Em; simpl in E; [|done].
  destruct (array_values h (paramValues o)) as [vs|] eqn:Ev; simpl in E; [|done].
  destruct (array_colors h (colors o)) as [cs|] eqn:Ec; simpl in E; [|done].
  rewrite (get_model_weaken _ _ _ _ Hs Em). simpl.
  rewrite (array_values_weaken _ _ _ _ Hs Ev). simpl.
  by rewrite (array_colors_weaken _ _ _ _ Hs Ec).
Qed.

Lemma model_value_Some h m vs cs :
  model_value h m = Some (vs, cs) ↔
  ∃ o, get_model h m = Some o ∧
       array_values h (paramValues o) = Some vs ∧
       array_colors h (colors o) = Some cs.
Proof.
  unfold model_value. split.
  - destruct (get_model h m) as [o|]; simpl; [|done].
    destruct (array_values h (paramValues o)) as [vs'|] eqn:Ev; simpl; [|done].
    destruct (array_colors h (colors o)) as [cs'|] eqn:Ec; simpl; [|done].
    intros ?; simplify_eq. by exists o.
  - intros (o & Hm & Hv & Hc).
    rewrite Hm. simpl. rewrite Hv. simpl. by rewrite Hc.
Qed.

Lemma array_values_is_Some h a vs :
  array_values h a = Some vs → is_Some (h !! a).
Proof.
  intros (elems & Ha & _)%array_values_Some. by eapply get_array_is_Some.
Qed.

(** The callbacks agree with their readings on values. *)
Lemma has_paramId_entry h pid l o :
  get_paramValue h l = Some o → has_paramId h pid l = entry_has pid o.
Proof. unfold has_paramId. by intros ->. Qed.

Lemma findIndex_values h pid elems vs :
  Forall2 (λ l o, get_paramValue h l = Some o) elems vs →
  findIndex (has_paramId h pid) elems = findIndex (entry_has pid) vs.
Proof.
  unfold findIndex. generalize 0. intros k F. revert k.
  induction F as [|l o elems vs Hl _ IH]; intros k; simpl; [done |].
  rewrite (has_paramId_entry _ _ _ _ Hl). by rewrite IH.
Qed.

Lemma find_values h pid elems vs :
  Forall2 (λ l o, get_paramValue h l = Some o) elems vs →
  match find (has_paramId h pid) elems with
  | Some parameterValue => value <$> get_paramValue h parameterValue
  | None => Some ""
  end = Some (read_value pid vs).
Proof.
  unfold read_value.
  induction 1 as [|l o elems vs Hl _ IH]; simpl; [done |].
  rewrite (has_paramId_entry _ _ _ _ Hl).
  destruct (entry_has pid o); [by rewrite Hl | done].
Qed.

(** Running the parts of a computation. *)
Lemma bind_Some {A B} (c : M A) (k : A → M B) h h' x :
  c h = Some (x, h') → bind c k h = k x h'.
Proof. unfold bind. by intros ->. Qed.

Lemma reading_Some {A} (f : heap → option A) h x :
  f h = Some x → reading f h = Some (x, h).
Proof. unfold reading. by intros ->. Qed.

Lemma spread_Some h a elems :
  get_array h a = Some elems →
  spread a h = Some (fresh (dom h), <[fresh (dom h) := CArray elems]> h).
Proof.
  intros Ha. unfold spread.
  by rewrite (bind_Some _ _ h h elems) by by apply reading_Some.
Qed.

Lemma array_push_Some h a x elems :
  get_array h a = Some elems →
  array_push a x h = Some (tt, <[a := CArray (elems ++ [x])]> h).
Proof.
  intros Ha. unfold array_push.
  by rewrite (bind_Some _ _ h h elems) by by apply reading_Some.
Qed.

Lemma array_set_Some h a i x elems :
  get_array h a = Some elems → (i < length elems)%nat →
  array_set a i x h = Some (tt, <[a := CArray (<[i := x]> elems)]> h).
Proof.
  intros Ha Hi. unfold array_set.
  rewrite (bind_Some _ _ h h elems) by by apply reading_Some.
  by rewrite bool_decide_eq_true_2.
Qed.
End Heap.

(** * The component on the heap and on values *)

Section Component.
Implicit Types (h : heap) (e : ParamEditor) (vs : list ParamValue).

(** [getParamValue] returns what [read_value] finds in the entries. *)
Lemma getParamValue_values h e vs pid :
  store_values h e = Some vs →
  getParamValue pid e h = Some (read_value pid vs).
Proof.
  intros (elems & Ha & F)%array_values_Some.
  unfold getParamValue. rewrite Ha. simpl. by apply find_values.
Qed.

(** [handleParamChange] always completes on a readable store.  It
    leaves every existing cell as it was, builds the new state in a
    new array, and the entries of that array are those [updater]
    computes. *)
Lemma handleParamChange_values h e vs pid val :
  store_values h e = Some vs →
  ∃ e' h',
    handleParamChange pid val e h = Some (e', h') ∧
    h ⊆ h' ∧
    props e' = props e ∧
    h !! st_paramValues (state e') = None ∧
    store_values h' e' = Some (updater pid val vs).
Proof.
  intros (elems & Ha & F)%array_values_Some.
  unfold handleParamChange. simpl.
  rewrite (bind_Some _ _ h h (findIndex (has_paramId h pid) elems))
    by (apply reading_Some; by rewrite Ha).
  erewrite bind_Some by by apply spread_Some.
  set (a := fresh (dom h)).
  set (h1 := <[a := CArray elems]> h).
  set (ent := fresh (dom h1)).
  set (new := {| paramId := pid; value := val |}).
  set (h2 := <[ent := CParamValue new]> h1).
  assert (h !! a = None) as Hfa by apply fresh_unused.
  assert (h1 !! ent = None) as Hfe by apply fresh_unused.
  assert (ent ≠ a) as Hne.
  { intros ->. subst h1. by rewrite lookup_insert_eq in Hfe. }
  assert (h !! ent = None) as Hfe0.
  { subst h1. by rewrite lookup_insert_ne in Hfe. }
  assert (get_array h2 a = Some elems) as Ha2.
  { subst h2 h1. rewrite get_array_insert_ne by done. apply get_array_insert. }
  assert (∀ elems', h ⊆ <[a := CArray elems']> h2) as Hsub.
  { intros elems'. apply map_subseteq_spec. intros l c Hl.
    rewrite lookup_insert_ne by (intros ->; congruence).
    subst h2. rewrite lookup_insert_ne by (intros ->; congruence).
    subst h1. rewrite lookup_insert_ne by (intros ->; congruence). done. }
  assert (∀ elems', get_paramValue (<[a := CArray elems']> h2) ent = Some new)
    as Hent.
  { intros elems'. unfold get_paramValue.
    rewrite lookup_insert_ne by done. subst h2. by rewrite lookup_insert_eq. }
  assert (∀ elems',
    Forall2 (λ l o, get_paramValue (<[a := CArray elems']> h2) l = Some o)
            elems vs) as Hold.
  { intros elems'. eapply Forall2_impl; [exact F |].
    intros l o. apply get_paramValue_weaken, Hsub. }
  unfold updater. rewrite <- (findIndex_values h pid elems vs F).
  set (i := findIndex (has_paramId h pid) elems).
  destruct (findIndex_range (has_paramId h pid) elems) as [Hi | Hi];
    fold i in Hi.
  - (* no entry: push *)
    rewrite !bool_decide_eq_false_2 by (intros ?; done).
    erewrite bind_Some
      by (erewrite bind_Some by reflexivity; by apply array_push_Some).
    eexists _, _. split; [reflexivity |].
    split; [apply Hsub |]. split; [done |]. split; [done |].
    apply array_values_Some. exists (elems ++ [ent]). simpl.
    split; [apply get_array_insert |].
    apply Forall2_app; [apply Hold |]. constructor; [apply Hent | constructor].
  - (* an entry at index [i]: assignment *)
    rewrite !(bool_decide_eq_true_2 (i ≠ -1)) by lia.
    erewrite bind_Some
      by (erewrite bind_Some by reflexivity; apply array_set_Some; [done | lia]).
    eexists _, _. split; [reflexivity |].
    split; [apply Hsub |]. split; [done |]. split; [done |].
    apply array_values_Some. exists (<[Z.to_nat i := ent]> elems). simpl.
    split; [apply get_array_insert |].
    apply Forall2_insert; [apply Hold | apply Hent].
Qed.

(** The same for a series of edits. *)
Lemma updates_values us : ∀ h e vs,
  store_values h e = Some vs →
  ∃ e' h',
    updates us e h = Some (e', h') ∧
    h ⊆ h' ∧
    props e' = props e ∧
    (state e' = state e ∨ h !! st_paramValues (state e') = None) ∧
    store_values h' e' = Some (updaters us vs).
Proof.
  induction us as [|[pid val] us IH]; intros h e vs Hvs; simpl.
  - exists e, h. repeat split; try done. by left.
  - destruct (handleParamChange_values h e vs pid val Hvs)
      as (e1 & h1 & E1 & S1 & P1 & F1 & V1).
    destruct (IH h1 e1 _ V1) as (e2 & h2 & E2 & S2 & P2 & F2 & V2).
    exists e2, h2. unfold bind. rewrite E1. split; [exact E2 |].
    split; [by etrans |]. split; [congruence |]. split; [| exact V2].
    right. destruct F2 as [-> | F2]; [done |].
    destruct (h !! st_paramValues (state e2)) as [c|] eqn:L; [| done].
    by rewrite (lookup_weaken _ _ _ _ L S1) in F2.
Qed.

(** [constructor] copies the model's array: the state holds a new
    array with the same entries. *)
Lemma constructor_values h p m vs :
  get_model h (model p) = Some m →
  array_values h (paramValues m) = Some vs →
  ∃ e h',
    constructor p h = Some (e, h') ∧
    h ⊆ h' ∧
    props e = p ∧
    h !! st_paramValues (state e) = None ∧
    store_values h' e = Some vs.
Proof.
  intros Hm (elems & Ha & F)%array_values_Some.
  unfold constructor, spread, bind, reading, alloc, ret.
  rewrite Hm. simpl. rewrite Ha. simpl.
  eexists _, _. split; [reflexivity |].
  split; [apply alloc_extends |]. split; [done |].
  split; [apply fresh_unused |].
  apply array_values_Some. exists elems. simpl.
  split; [apply get_array_insert |].
  eapply Forall2_impl; [exact F |].
  intros l o. apply get_paramValue_weaken, alloc_extends.
Qed.

(** [getModel] builds a new object and changes no existing cell. *)
Lemma getModel_spec h e m :
  get_model h (model (props e)) = Some m →
  ∃ r h',
    getModel e h = Some (r, h') ∧
    h ⊆ h' ∧
    h !! r = None ∧
    get_model h' r = Some {| paramValues := st_paramValues (state e);
                             colors := colors m |}.
Proof.
  intros Hm. unfold getModel, bind, reading, alloc. rewrite Hm. simpl.
  eexists _, _. split; [reflexivity |].
  split; [apply alloc_extends |]. split; [apply fresh_unused |].
  unfold get_model. by rewrite lookup_insert_eq.
Qed.
End Component.

(** * Facts about the entries *)

Section Values.
Implicit Types (vs : list ParamValue) (o : ParamValue) (pid : Z).

Lemma entry_has_true pid o : entry_has pid o = true ↔ paramId o = pid.
Proof. unfold entry_has. apply bool_decide_eq_true. Qed.

Lemma entry_has_false pid o : entry_has pid o = false ↔ paramId o ≠ pid.
Proof. unfold entry_has. apply bool_decide_eq_false. Qed.

Lemma no_entry_has pid vs :
  Forall (λ o, entry_has pid o = false) vs ↔ pid ∉ paramId <$> vs.
Proof.
  rewrite Forall_forall, list_elem_of_fmap. split.
  - intros F (o & -> & Ho). specialize (F _ Ho).
    by apply entry_has_false in F.
  - intros N o Ho. apply entry_has_false. intros <-. apply N. eauto.
Qed.

(** The two cases of the updater. *)
Lemma updater_absent pid val vs :
  pid ∉ paramId <$> vs →
  updater pid val vs = vs ++ [ {| paramId := pid; value := val |} ].
Proof.
  intros N%no_entry_has. unfold updater.
  rewrite (findIndex_none _ _ N). by rewrite bool_decide_eq_false_2 by lia.
Qed.

Lemma updater_present pid val vs (i : nat) o :
  vs !! i = Some o → paramId o = pid →
  pid ∉ paramId <$> take i vs →
  updater pid val vs = <[i := {| paramId := pid; value := val |}]> vs.
Proof.
  intros L Ho%entry_has_true N%no_entry_has. unfold updater.
  rewrite (findIndex_first _ _ _ _ L Ho N).
  rewrite bool_decide_eq_true_2 by lia. by rewrite Nat2Z.id.
Qed.

Lemma updater_cases pid val vs :
  ((pid ∉ paramId <$> vs) ∧
   updater pid val vs = vs ++ [ {| paramId := pid; value := val |} ]) ∨
  (∃ (i : nat) o,
      vs !! i = Some o ∧ paramId o = pid ∧ (pid ∉ paramId <$> take i vs) ∧
      updater pid val vs = <[i := {| paramId := pid; value := val |}]> vs).
Proof.
  destruct (find_spec (entry_has pid) vs) as [[_ F] | (i & o & _ & L & Ho & F)].
  - left. apply no_entry_has in F. split; [done | by apply updater_absent].
  - right. exists i, o. apply entry_has_true in Ho. apply no_entry_has in F.
    repeat split; try done. by apply (updater_present _ _ _ i o).
Qed.

(** The ids an update leaves in the store. *)
Lemma ids_updater_in pid val vs :
  pid ∈ paramId <$> vs →
  paramId <$> updater pid val vs = paramId <$> vs.
Proof.
  intros Hin.
  destruct (updater_cases pid val vs) as [[N _] | (i & o & L & Ho & _ & ->)];
    [done |].
  rewrite list_fmap_insert. simpl. apply list_insert_id.
  rewrite list_lookup_fmap, L. simpl. by rewrite Ho.
Qed.

Lemma ids_updater_notin pid val vs :
  pid ∉ paramId <$> vs →
  paramId <$> updater pid val vs = (paramId <$> vs) ++ [pid].
Proof. intros N. rewrite (updater_absent _ _ _ N). by rewrite fmap_app. Qed.

Lemma ids_updater_NoDup pid val vs :
  NoDup (paramId <$> vs) → NoDup (paramId <$> updater pid val vs).
Proof.
  intros ND. destruct (decide (pid ∈ paramId <$> vs)) as [Hin | N].
  - by rewrite ids_updater_in.
  - rewrite ids_updater_notin by done. apply NoDup_app.
    split; [done |]. split; [| apply NoDup_singleton].
    intros x Hx ->%list_elem_of_singleton. done.
Qed.

Lemma ids_updaters_NoDup us : ∀ vs,
  NoDup (paramId <$> vs) → NoDup (paramId <$> updaters us vs).
Proof.
  unfold updaters. induction us as [|u us IH]; intros vs ND; simpl; [done |].
  by apply IH, ids_updater_NoDup.
Qed.

Lemma updaters_snoc us u vs :
  updaters (us ++ [u]) vs = updater u.1 u.2 (updaters us vs).
Proof. unfold updaters. by rewrite foldl_app. Qed.

(** Searching after an update. *)
Lemma find_app_entry pid vs o :
  find (entry_has pid) (vs ++ [o]) =
  match find (entry_has pid) vs with
  | Some x => Some x
  | None => if entry_has pid o then Some o else None
  end.
Proof.
  induction vs as [|x vs IH]; simpl; [done |].
  by destruct (entry_has pid x).
Qed.

Lemma find_insert_other pid vs (i : nat) o new :
  vs !! i = Some o → entry_has pid o = false → entry_has pid new = false →
  find (entry_has pid) (<[i := new]> vs) = find (entry_has pid) vs.
Proof.
  revert i. induction vs as [|x vs IH]; intros [|i] L Ho Hn; simpl in *;
    try done.
  - simplify_eq. by rewrite Ho, Hn.
  - destruct (entry_has pid x); [done |]. by apply (IH i).
Qed.

Lemma find_updater_eq pid val vs :
  find (entry_has pid) (updater pid val vs)
  = Some {| paramId := pid; value := val |}.
Proof.
  destruct (updater_cases pid val vs)
    as [[N ->] | (i & o & L & Ho & N & ->)].
  - rewrite find_app_entry.
    apply no_entry_has in N. rewrite (find_none _ _ N).
    by rewrite (proj2 (entry_has_true pid _)).
  - apply (find_first _ _ i).
    + apply list_lookup_insert_eq. by apply lookup_lt_Some in L.
    + by apply entry_has_true.
    + rewrite take_insert_ge by lia. by apply no_entry_has.
Qed.

Lemma find_updater_ne pid pid' val vs :
  pid ≠ pid' →
  find (entry_has pid') (updater pid val vs) = find (entry_has pid') vs.
Proof.
  intros Hne.
  assert (entry_has pid' {| paramId := pid; value := val |} = false) as Hn
    by by apply entry_has_false.
  destruct (updater_cases pid val vs)
    as [[N ->] | (i & o & L & Ho & N & ->)].
  - rewrite find_app_entry, Hn. by destruct (find (entry_has pid') vs).
  - apply (find_insert_other _ _ _ o); [done | | done].
    apply entry_has_false. congruence.
Qed.

Lemma updater_has_id pid val vs : pid ∈ paramId <$> updater pid val vs.
Proof.
  destruct (decide (pid ∈ paramId <$> vs)) as [Hin | N].
  - by rewrite ids_updater_in.
  - rewrite ids_updater_notin by done.
    apply elem_of_app. right. by apply list_elem_of_singleton.
Qed.

(** Writing an id a second time overwrites what the first write left. *)
Lemma updater_twice pid val val' vs :
  updater pid val' (updater pid val vs) = updater pid val' vs.
Proof.
  destruct (updater_cases pid val vs)
    as [[N E] | (i & o & L & Ho & N & E)]; rewrite E.
  - rewrite (updater_absent pid val' vs N).
    rewrite (updater_present pid val' _ (length vs)
               {| paramId := pid; value := val |}).
    + rewrite insert_app_r_alt by lia. by rewrite Nat.sub_diag.
    + rewrite lookup_app_r by lia. by rewrite Nat.sub_diag.
    + done.
    + by rewrite take_app_length.
  - rewrite (updater_present pid val' vs i o L Ho N).
    rewrite (updater_present pid val' _ i {| paramId := pid; value := val |}).
    + by rewrite list_insert_insert_eq.
    + apply list_lookup_insert_eq. by apply lookup_lt_Some in L.
    + done.
    + by rewrite take_insert_ge by lia.
Qed.

(** The entries kept under other ids are left as they were. *)
Lemma filter_insert_other (P : ParamValue → Prop) `{∀ x, Decision (P x)}
      vs (i : nat) o new :
  vs !! i = Some o → ¬ P o → ¬ P new →
  filter P (<[i := new]> vs) = filter P vs.
Proof.
  revert i. induction vs as [|x vs IH]; intros [|i] L Ho Hn; simpl in *;
    try done.
  - simplify_eq. by rewrite !filter_cons_False.
  - rewrite !filter_cons. by rewrite (IH i).
Qed.

Lemma updater_others pid val vs :
  filter (λ o, paramId o ≠ pid) (updater pid val vs)
  = filter (λ o, paramId o ≠ pid) vs.
Proof.
  destruct (updater_cases pid val vs)
    as [[N ->] | (i & o & L & Ho & N & ->)].
  - rewrite filter_app, filter_cons_False by (simpl; tauto).
    by rewrite filter_nil, app_nil_r.
  - apply (filter_insert_other _ _ _ o); [done | tauto | simpl; tauto].
Qed.

Lemma read_value_updater_eq pid val vs :
  read_value pid (updater pid val vs) = val.
Proof. unfold read_value. by rewrite find_updater_eq. Qed.

Lemma read_value_updater_ne pid pid' val vs :
  pid ≠ pid' → read_value pid' (updater pid val vs) = read_value pid' vs.
Proof. intros. unfold read_value. by rewrite find_updater_ne. Qed.

Lemma read_value_absent pid vs :
  pid ∉ paramId <$> vs → read_value pid vs = "".
Proof.
  intros N%no_entry_has. unfold read_value. by rewrite (find_none _ _ N).
Qed.

Lemma read_value_updaters_absent us : ∀ pid vs,
  pid ∉ us.*1 → read_value pid (updaters us vs) = read_value pid vs.
Proof.
  unfold updaters. induction us as [|[pid' val] us IH]; intros pid vs N;
    simpl; [done |].
  rewrite fmap_cons, not_elem_of_cons in N. destruct N as [N1 N2].
  rewrite IH by done. apply read_value_updater_ne. simpl in N1. congruence.
Qed.
End Values.

(** * Histories of writes *)

Section Histories.
Implicit Types (ids : list Z) (ws : list (Z * string)).

Lemma first_seen_snoc ids i :
  first_seen (ids ++ [i]) =
  if decide (i ∈ first_seen ids) then first_seen ids
  else first_seen ids ++ [i].
Proof. unfold first_seen. by rewrite foldl_app. Qed.

Lemma elem_of_first_seen ids i : i ∈ first_seen ids ↔ i ∈ ids.
Proof.
  induction ids as [|j ids IH] using rev_ind; [done |].
  rewrite first_seen_snoc. destruct (decide (j ∈ first_seen ids)) as [Hj | Hj].
  - rewrite IH. rewrite elem_of_app, list_elem_of_singleton.
    split; [tauto |]. intros [? | ->]; [done | by apply IH].
  - rewrite !elem_of_app. by rewrite IH.
Qed.

Lemma NoDup_first_seen ids : NoDup (first_seen ids).
Proof.
  induction ids as [|j ids IH] using rev_ind; [constructor |].
  rewrite first_seen_snoc. destruct (decide (j ∈ first_seen ids)); [done |].
  apply NoDup_app. split; [done |]. split; [| apply NoDup_singleton].
  by intros x Hx ->%list_elem_of_singleton.
Qed.

Lemma first_seen_NoDup ids : NoDup ids → first_seen ids = ids.
Proof.
  induction ids as [|j ids IH] using rev_ind; [done |].
  intros (ND & Hj & _)%NoDup_app. rewrite first_seen_snoc, (IH ND).
  rewrite decide_False; [done |].
  intros Hin. apply (Hj _ Hin). by apply list_elem_of_singleton.
Qed.

Lemma last_written_snoc pid ws w :
  last_written pid (ws ++ [w]) =
  if decide (w.1 = pid) then Some w.2 else last_written pid ws.
Proof. unfold last_written. by rewrite foldl_app. Qed.

(** The ids in the store after a series of edits, for a store that
    started without repeated ids. *)
Lemma ids_updaters us (vs : list ParamValue) :
  NoDup (paramId <$> vs) →
  paramId <$> updaters us vs = first_seen ((paramId <$> vs) ++ us.*1).
Proof.
  intros ND. induction us as [|u us IH] using rev_ind.
  - rewrite app_nil_r. by rewrite first_seen_NoDup.
  - rewrite updaters_snoc, fmap_app, app_assoc.
    change (fst <$> [u]) with [u.1]. rewrite first_seen_snoc, <- IH.
    destruct (decide (u.1 ∈ paramId <$> updaters us vs)).
    + by apply ids_updater_in.
    + by apply ids_updater_notin.
Qed.

(** The entry found for an id after a series of edits: the last write
    of that id if there was one, else the entry found before. *)
Lemma find_updaters pid us (vs : list ParamValue) :
  find (entry_has pid) (updaters us vs) =
  match last_written pid us with
  | Some val => Some {| paramId := pid; value := val |}
  | None => find (entry_has pid) vs
  end.
Proof.
  induction us as [|u us IH] using rev_ind; [done |].
  rewrite updaters_snoc, last_written_snoc.
  destruct (decide (u.1 = pid)) as [<- | N].
  - by rewrite find_updater_eq.
  - by rewrite find_updater_ne.
Qed.

(** An entry of a store without repeated ids is the one [find] finds. *)
Lemma find_NoDup (vs : list ParamValue) o :
  NoDup (paramId <$> vs) → o ∈ vs →
  find (entry_has (paramId o)) vs = Some o.
Proof.
  intros ND (i & L)%list_elem_of_lookup.
  apply (find_first _ _ i); [done | by apply entry_has_true |].
  apply Forall_forall. intros x (j & Lj)%list_elem_of_lookup.
  apply entry_has_false. intros E.
  apply lookup_take_Some in Lj as [Lj Hji].
  assert (j = i); [| lia].
  eapply NoDup_lookup; [exact ND | |].
  - rewrite list_lookup_fmap, Lj. simpl. by rewrite E.
  - by rewrite list_lookup_fmap, L.
Qed.
End Histories.

(** * A component from its mounting on *)

Section Lifetime.
Implicit Types (h : heap) (e : ParamEditor) (vs : list ParamValue).

(** Mounting on a readable model and then any series of edits always
    completes; no cell of the caller's heap is changed, the state array
    is never one of the caller's, and the entries of the store are
    those [updaters] computes from the model's. *)
Lemma lifetime_values h p vs0 cs us :
  model_value h (model p) = Some (vs0, cs) →
  ∃ m e h1 e' h2,
    get_model h (model p) = Some m ∧
    array_values h (paramValues m) = Some vs0 ∧
    array_colors h (colors m) = Some cs ∧
    constructor p h = Some (e, h1) ∧
    updates us e h1 = Some (e', h2) ∧
    h ⊆ h1 ∧ h1 ⊆ h2 ∧
    props e = p ∧ props e' = p ∧
    h !! st_paramValues (state e) = None ∧
    h !! st_paramValues (state e') = None ∧
    store_values h1 e = Some vs0 ∧
    store_values h2 e' = Some (updaters us vs0).
Proof.
  intros (m & Hm & Hv & Hc)%model_value_Some.
  destruct (constructor_values h p m vs0 Hm Hv) as (e & h1 & E & S & P & F & V).
  destruct (updates_values us h1 e vs0 V) as (e' & h2 & E' & S' & P' & F' & V').
  exists m, e, h1, e', h2. repeat split; try done; [congruence |].
  destruct F' as [-> | F']; [done |].
  destruct (h !! st_paramValues (state e')) as [c|] eqn:L; [| done].
  by rewrite (lookup_weaken _ _ _ _ L S) in F'.
Qed.

(** [getModel] on a readable component: the new object holds the
    store's entries and the model's colors. *)
Lemma getModel_values h e vs0 cs vs :
  model_value h (model (props e)) = Some (vs0, cs) →
  store_values h e = Some vs →
  ∃ r h' m,
    getModel e h = Some (r, h') ∧
    h ⊆ h' ∧
    h !! r = None ∧
    get_model h (model (props e)) = Some m ∧
    get_model h' r = Some {| paramValues := st_paramValues (state e);
                             colors := colors m |} ∧
    model_value h' r = Some (vs, cs).
Proof.
  intros (m & Hm & _ & Hc)%model_value_Some Hvs.
  destruct (getModel_spec h e m Hm) as (r & h' & E & S & F & G).
  exists r, h', m. repeat split; try done.
  apply model_value_Some. eexists. split; [exact G |]. simpl. split.
  - by apply (array_values_weaken h).
  - by apply (array_colors_weaken h).
Qed.
End Lifetime.

(** * The scenarios of the harness *)

Example scenario_A :
  scenario [(3, "хлопок")]
  = Some ([ {| paramId := 1; value := "повседневное" |};
            {| paramId := 2; value := "макси" |};
            {| paramId := 3; value := "хлопок" |} ], []).
Proof. vm_compute. reflexivity. Qed.

Example scenario_B :
  scenario [(1, "вечернее")]
  = Some ([ {| paramId := 1; value := "вечернее" |};
            {| paramId := 2; value := "макси" |} ], []).
Proof. vm_compute. reflexivity. Qed.

Example test_model_readable :
  model_value test_model_heap test_model = Some (testValues, []).
Proof. vm_compute. reflexivity. Qed.

Example test_store_readable :
  store_values test_heap test_editor = Some testValues.
Proof. vm_compute. reflexivity. Qed.

(** * Properties of the store *)

(** C1.  From any readable store, and for any id (the component's
    [params] play no part), [handleParamChange pid val] completes.  If no
    entry has [paramId = pid], the new store is the old sequence with
    [{pid, val}] appended at the end.  If some entry has it, the entry
    found (the first with that id, at index [i]) is replaced by
    [{pid, val}] at the same index [i], and every other position keeps
    its entry. *)
Theorem handleParamChange_replaces_or_appends
    (h : heap) (e : ParamEditor) (vs : list ParamValue) (pid : Z) (val : string) :
  store_values h e = Some vs →
  ∃ e' h' vs',
    handleParamChange pid val e h = Some (e', h') ∧
    store_values h' e' = Some vs' ∧
    ((pid ∉ paramId <$> vs) →
       vs' = vs ++ [ {| paramId := pid; value := val |} ]) ∧
    ((pid ∈ paramId <$> vs) →
       ∃ (i : nat) o,
         vs !! i = Some o ∧ paramId o = pid ∧
         (pid ∉ paramId <$> take i vs) ∧
         vs' = <[i := {| paramId := pid; value := val |}]> vs ∧
         length vs' = length vs ∧
         vs' !! i = Some {| paramId := pid; value := val |} ∧
         (∀ j : nat, j ≠ i → vs' !! j = vs !! j)).
Proof.
  intros Hvs.
  destruct (handleParamChange_values h e vs pid val Hvs)
    as (e' & h' & E & _ & _ & _ & V).
  exists e', h', (updater pid val vs). split; [done |]. split; [done |]. split.
  - apply updater_absent.
  - intros Hin.
    destruct (updater_cases pid val vs) as [[N _] | (i & o & L & Ho & N & ->)];
      [done |].
    exists i, o. repeat split; try done.
    + apply length_insert.
    + apply list_lookup_insert_eq. by apply lookup_lt_Some in L.
    + intros j Hj. by apply list_lookup_insert_ne.
Qed.

Lemma handleParamChange_replaces_or_appends_witness :
  ∃ e' h',
    handleParamChange 3 "хлопок" test_editor test_heap = Some (e', h') ∧
    store_values h' e'
    = Some (testValues ++ [ {| paramId := 3; value := "хлопок" |} ]).
Proof.
  destruct (handleParamChange_replaces_or_appends
              test_heap test_editor testValues 3 "хлопок")
    as (e' & h' & vs' & E & V & Habs & _).
  - vm_compute. reflexivity.
  - exists e', h'. split; [exact E |]. rewrite V. f_equal. apply Habs.
    apply (bool_decide_unpack _). vm_compute. exact I.
Defined.

(** C2.  Mount the component on a model whose entries have pairwise
    distinct ids and apply any series of edits.  The ids in the store are
    then the ids seen (the model's, then the edits') each exactly once,
    in the order in which they were first seen; and every entry holds the
    value the last edit of its id wrote, or, when no edit wrote its id,
    is the entry the model had. *)
Theorem updates_one_entry_per_id_last_value
    (h : heap) (p : Props) (vs0 : list ParamValue) (cs : list Color)
    (us : list (Z * string)) :
  model_value h (model p) = Some (vs0, cs) →
  NoDup (paramId <$> vs0) →
  ∃ e h1 e' h2 vs',
    constructor p h = Some (e, h1) ∧
    updates us e h1 = Some (e', h2) ∧
    store_values h2 e' = Some vs' ∧
    paramId <$> vs' = first_seen ((paramId <$> vs0) ++ us.*1) ∧
    NoDup (paramId <$> vs') ∧
    (∀ pid, pid ∈ paramId <$> vs' ↔ pid ∈ (paramId <$> vs0) ++ us.*1) ∧
    (∀ o, o ∈ vs' →
       match last_written (paramId o) us with
       | Some val => value o = val
       | None => o ∈ vs0
       end).
Proof.
  intros Hm ND.
  destruct (lifetime_values h p vs0 cs us Hm)
    as (m & e & h1 & e' & h2 & _ & _ & _ & E & E' & _ & _ & _ & _ & _ & _ & _ & V).
  exists e, h1, e', h2, (updaters us vs0).
  split; [done |]. split; [done |]. split; [done |].
  assert (paramId <$> updaters us vs0
          = first_seen ((paramId <$> vs0) ++ us.*1)) as Hids
    by by apply ids_updaters.
  split; [done |]. split; [by apply ids_updaters_NoDup |]. split.
  - intros pid. rewrite Hids. apply elem_of_first_seen.
  - intros o Ho.
    pose proof (find_NoDup _ o (ids_updaters_NoDup us vs0 ND) Ho) as Hf.
    rewrite find_updaters in Hf.
    destruct (last_written (paramId o) us) as [val|].
    + injection Hf as Hf. by apply (f_equal value) in Hf.
    + apply list_elem_of_In. by apply (find_some (entry_has (paramId o))).
Qed.

Lemma updates_one_entry_per_id_last_value_witness :
  ∃ e h1 e' h2,
    constructor test_props test_model_heap = Some (e, h1) ∧
    updates [(3, "хлопок"); (1, "вечернее"); (3, "лён")] e h1 = Some (e', h2) ∧
    (paramId <$> default [] (store_values h2 e')) = [1; 2; 3].
Proof.
  destruct (updates_one_entry_per_id_last_value
              test_model_heap test_props testValues []
              [(3, "хлопок"); (1, "вечернее"); (3, "лён")])
    as (e & h1 & e' & h2 & vs' & E & E' & V & Hids & _).
  - vm_compute. reflexivity.
  - apply (bool_decide_unpack _). vm_compute. exact I.
  - exists e, h1, e', h2. split; [exact E |]. split; [exact E' |].
    rewrite V. simpl. rewrite Hids. vm_compute. reflexivity.
Defined.

(** C3.  From any readable store, [getParamValue pid] right after
    [handleParamChange pid val] returns [val].  And for a component
    mounted on a model with no entry for [pid], after any series of edits
    none of which writes [pid], [getParamValue pid] returns the empty
    string; it does not fail. *)
Theorem getParamValue_after_update_and_default :
  (∀ (h : heap) (e : ParamEditor) (vs : list ParamValue) (pid : Z) (val : string),
     store_values h e = Some vs →
     ∃ e' h',
       handleParamChange pid val e h = Some (e', h') ∧
       getParamValue pid e' h' = Some val) ∧
  (∀ (h : heap) (p : Props) (vs0 : list ParamValue) (cs : list Color)
     (us : list (Z * string)) (pid : Z),
     model_value h (model p) = Some (vs0, cs) →
     (pid ∉ paramId <$> vs0) → (pid ∉ us.*1) →
     ∃ e h1 e' h2,
       constructor p h = Some (e, h1) ∧
       updates us e h1 = Some (e', h2) ∧
       getParamValue pid e' h2 = Some "").
Proof.
  split.
  - intros h e vs pid val Hvs.
    destruct (handleParamChange_values h e vs pid val Hvs)
      as (e' & h' & E & _ & _ & _ & V).
    exists e', h'. split; [done |].
    rewrite (getParamValue_values _ _ _ _ V). by rewrite read_value_updater_eq.
  - intros h p vs0 cs us pid Hm N0 Nus.
    destruct (lifetime_values h p vs0 cs us Hm)
      as (m & e & h1 & e' & h2 & _ & _ & _ & E & E' & _ & _ & _ & _ & _ & _ & _ & V).
    exists e, h1, e', h2. split; [done |]. split; [done |].
    rewrite (getParamValue_values _ _ _ _ V).
    rewrite read_value_updaters_absent by done.
    by rewrite read_value_absent.
Qed.

Lemma getParamValue_after_update_and_default_witness :
  (∃ e' h',
     handleParamChange 1 "вечернее" test_editor test_heap = Some (e', h') ∧
     getParamValue 1 e' h' = Some "вечернее") ∧
  (∃ e h1 e' h2,
     constructor test_props test_model_heap = Some (e, h1) ∧
     updates [(1, "вечернее")] e h1 = Some (e', h2) ∧
     getParamValue 3 e' h2 = Some "").
Proof.
  split.
  - apply (proj1 getParamValue_after_update_and_default _ _ testValues).
    vm_compute. reflexivity.
  - apply (proj2 getParamValue_after_update_and_default _ _ testValues []).
    + vm_compute. reflexivity.
    + apply (bool_decide_unpack _). vm_compute. exact I.
    + apply (bool_decide_unpack _). vm_compute. exact I.
Defined.

(** C4.  Mount the component on a model whose entries have pairwise
    distinct ids.  After any series of edits the ids of the stored
    entries are still pairwise distinct; and writing an id that was just
    written leaves the store as a single write of the second value would:
    the entry is overwritten, none is added. *)
Theorem updates_keep_ids_distinct
    (h : heap) (p : Props) (vs0 : list ParamValue) (cs : list Color)
    (us : list (Z * string)) :
  model_value h (model p) = Some (vs0, cs) →
  NoDup (paramId <$> vs0) →
  ∃ e h1 e' h2 vs',
    constructor p h = Some (e, h1) ∧
    updates us e h1 = Some (e', h2) ∧
    store_values h2 e' = Some vs' ∧
    NoDup (paramId <$> vs') ∧
    (∀ pid val val',
       ∃ e1 h3 e2 h4 vs1 vs2,
         handleParamChange pid val e' h2 = Some (e1, h3) ∧
         store_values h3 e1 = Some vs1 ∧
         handleParamChange pid val' e1 h3 = Some (e2, h4) ∧
         store_values h4 e2 = Some vs2 ∧
         paramId <$> vs2 = paramId <$> vs1 ∧
         NoDup (paramId <$> vs2) ∧
         vs2 = updater pid val' vs').
Proof.
  intros Hm ND.
  destruct (lifetime_values h p vs0 cs us Hm)
    as (m & e & h1 & e' & h2 & _ & _ & _ & E & E' & _ & _ & _ & _ & _ & _ & _ & V).
  exists e, h1, e', h2, (updaters us vs0).
  split; [done |]. split; [done |]. split; [done |].
  assert (NoDup (paramId <$> updaters us vs0)) as ND'
    by by apply ids_updaters_NoDup.
  split; [done |].
  intros pid val val'.
  destruct (handleParamChange_values h2 e' _ pid val V)
    as (e1 & h3 & E1 & _ & _ & _ & V1).
  destruct (handleParamChange_values h3 e1 _ pid val' V1)
    as (e2 & h4 & E2 & _ & _ & _ & V2).
  exists e1, h3, e2, h4, (updater pid val (updaters us vs0)),
    (updater pid val' (updater pid val (updaters us vs0))).
  repeat split; try done.
  - apply ids_updater_in, updater_has_id.
  - by do 2 apply ids_updater_NoDup.
  - apply updater_twice.
Qed.

Lemma updates_keep_ids_distinct_witness :
  ∃ e h1 e' h2 vs',
    constructor test_props test_model_heap = Some (e, h1) ∧
    updates [(3, "хлопок"); (3, "лён")] e h1 = Some (e', h2) ∧
    store_values h2 e' = Some vs' ∧
    NoDup (paramId <$> vs').
Proof.
  destruct (updates_keep_ids_distinct
              test_model_heap test_props testValues []
              [(3, "хлопок"); (3, "лён")])
    as (e & h1 & e' & h2 & vs' & E & E' & V & ND & _).
  - vm_compute. reflexivity.
  - apply (bool_decide_unpack _). vm_compute. exact I.
  - by exists e, h1, e', h2, vs'.
Defined.

(** C5.  Mount the component on a readable model and apply any series of
    edits.  The object [getModel] then returns has, as its [colors], the
    very array reference the model holds; the cell of that array and the
    model object itself are as they were before mounting. *)
Theorem getModel_colors_pass_through
    (h : heap) (p : Props) (vs0 : list ParamValue) (cs : list Color)
    (us : list (Z * string)) :
  model_value h (model p) = Some (vs0, cs) →
  ∃ m e h1 e' h2 r h3 mr,
    get_model h (model p) = Some m ∧
    constructor p h = Some (e, h1) ∧
    updates us e h1 = Some (e', h2) ∧
    getModel e' h2 = Some (r, h3) ∧
    get_model h3 r = Some mr ∧
    colors mr = colors m ∧
    h3 !! colors m = h !! colors m ∧
    get_model h3 (model p) = Some m ∧
    array_colors h3 (colors mr) = Some cs.
Proof.
  intros Hm.
  destruct (lifetime_values h p vs0 cs us Hm)
    as (m & e & h1 & e' & h2 & Gm & _ & Hc & E & E' & S1 & S2 & _ & P' & _ & _ & _ & V).
  assert (h ⊆ h2) as S by by etrans.
  assert (get_model h2 (model (props e')) = Some m) as Gm2.
  { rewrite P'. by apply (get_model_weaken h). }
  destruct (getModel_spec h2 e' m Gm2) as (r & h3 & Er & S3 & _ & Gr).
  assert (h ⊆ h3) as S' by by etrans.
  exists m, e, h1, e', h2, r, h3,
    {| paramValues := st_paramValues (state e'); colors := colors m |}.
  do 6 (split; [done |]). simpl. split; [| split].
  - apply array_colors_Some in Hc as (elems & Ha & _).
    apply get_array_is_Some in Ha as [c L].
    by rewrite L, (lookup_weaken _ _ _ _ L S').
  - by apply (get_model_weaken h).
  - by apply (array_colors_weaken h).
Qed.

Lemma getModel_colors_pass_through_witness :
  ∃ m e h1 e' h2 r h3 mr,
    get_model test_model_heap test_model = Some m ∧
    constructor test_props test_model_heap = Some (e, h1) ∧
    updates [(3, "хлопок")] e h1 = Some (e', h2) ∧
    getModel e' h2 = Some (r, h3) ∧
    get_model h3 r = Some mr ∧
    colors mr = colors m.
Proof.
  destruct (getModel_colors_pass_through
              test_model_heap test_props testValues [] [(3, "хлопок")])
    as (m & e & h1 & e' & h2 & r & h3 & mr & Gm & E & E' & Er & Gr & C & _).
  - vm_compute. reflexivity.
  - by exists m, e, h1, e', h2, r, h3, mr.
Defined.

(** C6.  On a readable component, two calls of [getModel] with no edit
    between them both complete; they return two different objects with
    the same content, the store's entries and the model's colors. *)
Theorem getModel_twice_same_content
    (h : heap) (e : ParamEditor) (vs0 vs : list ParamValue) (cs : list Color) :
  model_value h (model (props e)) = Some (vs0, cs) →
  store_values h e = Some vs →
  ∃ r1 h1 r2 h2,
    getModel e h = Some (r1, h1) ∧
    getModel e h1 = Some (r2, h2) ∧
    r1 ≠ r2 ∧
    model_value h1 r1 = Some (vs, cs) ∧
    model_value h2 r1 = Some (vs, cs) ∧
    model_value h2 r2 = Some (vs, cs).
Proof.
  intros Hm Hvs.
  destruct (getModel_values h e vs0 cs vs Hm Hvs)
    as (r1 & h1 & m & E1 & S1 & F1 & _ & G1 & V1).
  destruct (getModel_values h1 e vs0 cs vs)
    as (r2 & h2 & m2 & E2 & S2 & F2 & _ & G2 & V2).
  { by apply (model_value_weaken h). }
  { by apply (array_values_weaken h). }
  exists r1, h1, r2, h2. repeat split; try done.
  - intros ->. unfold get_model in G1. by rewrite F2 in G1.
  - by apply (model_value_weaken h1).
Qed.

Lemma getModel_twice_same_content_witness :
  ∃ r1 h1 r2 h2,
    getModel test_editor test_heap = Some (r1, h1) ∧
    getModel test_editor h1 = Some (r2, h2) ∧
    r1 ≠ r2 ∧
    model_value h2 r1 = Some (testValues, []) ∧
    model_value h2 r2 = Some (testValues, []).
Proof.
  destruct (getModel_twice_same_content
              test_heap test_editor testValues testValues [])
    as (r1 & h1 & r2 & h2 & E1 & E2 & N & _ & V1 & V2).
  - vm_compute. reflexivity.
  - vm_compute. reflexivity.
  - by exists r1, h1, r2, h2.
Defined.

(** C7, as stated, fails.  In [App]'s setting the caller takes the model
    from [getModel] and pushes an entry for id 3 onto its [paramValues];
    the component, which was never edited, then reads that entry and
    exports it. *)
Lemma getModel_result_is_live_view :
  fst <$>
    (r <- getModel test_editor ;;
     before <- reading (getParamValue 3 test_editor) ;;
     caller_pushes r {| paramId := 3; value := "хлопок" |} ;;;
     after <- reading (getParamValue 3 test_editor) ;;
     r' <- getModel test_editor ;;
     exported <- reading (λ h, model_value h r') ;;
     ret (before, after, exported)) test_heap
  = Some ("", "хлопок",
          (testValues ++ [ {| paramId := 3; value := "хлопок" |} ], [])).
Proof. vm_compute. reflexivity. Qed.

(** C7, amended.  On a readable component [getModel] returns a new
    object whose [paramValues] is the very array the state holds.  No
    edit writes into that array: whatever edits follow, the returned
    object keeps the content it had.  And the returned object is not part
    of the store: overwriting it changes nothing the store reads. *)
Theorem getModel_shares_array_edits_copy
    (h : heap) (e : ParamEditor) (vs0 vs : list ParamValue) (cs : list Color) :
  model_value h (model (props e)) = Some (vs0, cs) →
  store_values h e = Some vs →
  ∃ r h1 m,
    getModel e h = Some (r, h1) ∧
    h !! r = None ∧
    get_model h1 r = Some m ∧
    paramValues m = st_paramValues (state e) ∧
    model_value h1 r = Some (vs, cs) ∧
    (∀ us, ∃ e' h2,
       updates us e h1 = Some (e', h2) ∧
       model_value h2 r = Some (vs, cs)) ∧
    (∀ c pid,
       store_values (<[r := c]> h1) e = Some vs ∧
       getParamValue pid e (<[r := c]> h1) = getParamValue pid e h1).
Proof.
  intros Hm Hvs.
  destruct (getModel_values h e vs0 cs vs Hm Hvs)
    as (r & h1 & m & E & S & F & _ & G & V).
  assert (store_values h1 e = Some vs) as Hvs1
    by by apply (array_values_weaken h).
  eexists r, h1, _. do 3 (split; [done |]). split; [done |]. split; [done |].
  split.
  - intros us.
    destruct (updates_values us h1 e vs Hvs1) as (e' & h2 & E' & S' & _ & _ & _).
    exists e', h2. split; [done |]. by apply (model_value_weaken h1).
  - intros c pid.
    assert (h ⊆ <[r := c]> h1) as S'.
    { apply map_subseteq_spec. intros l x L.
      rewrite lookup_insert_ne by (intros ->; congruence).
      by apply (lookup_weaken h). }
    assert (store_values (<[r := c]> h1) e = Some vs) as Hvs'
      by by apply (array_values_weaken h).
    split; [done |].
    by rewrite (getParamValue_values _ _ _ _ Hvs'),
               (getParamValue_values _ _ _ _ Hvs1).
Qed.

Lemma getModel_shares_array_edits_copy_witness :
  ∃ r h1 m,
    getModel test_editor test_heap = Some (r, h1) ∧
    get_model h1 r = Some m ∧
    paramValues m = st_paramValues (state test_editor) ∧
    ∃ e' h2,
      updates [(1, "вечернее")] test_editor h1 = Some (e', h2) ∧
      model_value h2 r = Some (testValues, []).
Proof.
  destruct (getModel_shares_array_edits_copy
              test_heap test_editor testValues testValues [])
    as (r & h1 & m & E & _ & G & Sh & _ & U & _).
  - vm_compute. reflexivity.
  - vm_compute. reflexivity.
  - exists r, h1, m. do 3 (split; [done |]). apply U.
Defined.

(** C8.  [constructor] copies the model's array into a new one that
    holds the same entries.  Whatever edits follow, the state array is
    never the model's array, no cell of the caller's heap is changed, and
    the model's [paramValues] array still reads as the same entries. *)
Theorem constructor_copy_protects_model
    (h : heap) (p : Props) (vs0 : list ParamValue) (cs : list Color)
    (us : list (Z * string)) :
  model_value h (model p) = Some (vs0, cs) →
  ∃ m e h1 e' h2,
    get_model h (model p) = Some m ∧
    constructor p h = Some (e, h1) ∧
    store_values h1 e = Some vs0 ∧
    st_paramValues (state e) ≠ paramValues m ∧
    updates us e h1 = Some (e', h2) ∧
    st_paramValues (state e') ≠ paramValues m ∧
    h ⊆ h2 ∧
    h2 !! paramValues m = h !! paramValues m ∧
    array_values h2 (paramValues m) = Some vs0 ∧
    model_value h2 (model p) = Some (vs0, cs).
Proof.
  intros Hm.
  destruct (lifetime_values h p vs0 cs us Hm)
    as (m & e & h1 & e' & h2 & Gm & Hv & _ & E & E' & S1 & S2 & _ & _ & F & F' & V & _).
  assert (h ⊆ h2) as S by by etrans.
  destruct (array_values_is_Some _ _ _ Hv) as [c L].
  exists m, e, h1, e', h2. repeat split; try done.
  - intros Heq. rewrite Heq in F. congruence.
  - intros Heq. rewrite Heq in F'. congruence.
  - by rewrite L, (lookup_weaken _ _ _ _ L S).
  - by apply (array_values_weaken h).
  - by apply (model_value_weaken h).
Qed.

Lemma constructor_copy_protects_model_witness :
  ∃ m e h1 e' h2,
    get_model test_model_heap test_model = Some m ∧
    constructor test_props test_model_heap = Some (e, h1) ∧
    updates [(1, "вечернее"); (3, "хлопок")] e h1 = Some (e', h2) ∧
    array_values h2 (paramValues m) = Some testValues.
Proof.
  destruct (constructor_copy_protects_model
              test_model_heap test_props testValues []
              [(1, "вечернее"); (3, "хлопок")])
    as (m & e & h1 & e' & h2 & Gm & E & _ & _ & E' & _ & _ & _ & V & _).
  - vm_compute. reflexivity.
  - by exists m, e, h1, e', h2.
Defined.

(** C9.  From any readable store, [handleParamChange pid val] leaves
    what [getParamValue] returns for every other id as it was, and leaves
    the entries kept under other ids as they were, in the same order. *)
Theorem handleParamChange_frame
    (h : heap) (e : ParamEditor) (vs : list ParamValue)
    (pid pid' : Z) (val : string) :
  store_values h e = Some vs →
  pid ≠ pid' →
  ∃ e' h' vs',
    handleParamChange pid val e h = Some (e', h') ∧
    store_values h' e' = Some vs' ∧
    is_Some (getParamValue pid' e h) ∧
    getParamValue pid' e' h' = getParamValue pid' e h ∧
    filter (λ o, paramId o ≠ pid) vs' = filter (λ o, paramId o ≠ pid) vs.
Proof.
  intros Hvs Hne.
  destruct (handleParamChange_values h e vs pid val Hvs)
    as (e' & h' & E & _ & _ & _ & V).
  exists e', h', (updater pid val vs). split; [done |]. split; [done |].
  rewrite (getParamValue_values _ _ _ _ V), (getParamValue_values _ _ _ _ Hvs).
  split; [eauto |]. split.
  - by rewrite read_value_updater_ne.
  - apply updater_others.
Qed.

Lemma handleParamChange_frame_witness :
  ∃ e' h',
    handleParamChange 1 "вечернее" test_editor test_heap = Some (e', h') ∧
    getParamValue 2 e' h' = Some "макси".
Proof.
  destruct (handleParamChange_frame
              test_heap test_editor testValues 1 2 "вечернее")
    as (e' & h' & vs' & E & _ & _ & R & _).
  - vm_compute. reflexivity.
  - lia.
  - exists e', h'. split; [done |]. rewrite R. vm_compute. reflexivity.
Defined.

(** C10, as stated, fails on a store that holds an id twice.  Mounted on
    a model with the entries [{1, "a"}] and [{1, ""}], the store has an
    entry for id 1 whose value is the empty string, and
    [getParamValue 1] returns ["a"]: the read is that of the first
    entry with the id. *)
Lemma getParamValue_reads_first_of_repeated_id :
  fst <$>
    (m <- new_model [ {| paramId := 1; value := "a" |};
                      {| paramId := 1; value := "" |} ] [] ;;
     e <- mount testParameters m ;;
     vs <- reading (λ h, store_values h e) ;;
     r <- reading (getParamValue 1 e) ;;
     ret (vs, r)) ∅
  = Some ([ {| paramId := 1; value := "a" |};
            {| paramId := 1; value := "" |} ], "a").
Proof. vm_compute. reflexivity. Qed.

(** C10, amended.  On any readable store [getParamValue pid] returns the
    empty string when no entry has id [pid], and also when the entry found
    for [pid] (the first with that id; the only one when ids are
    distinct) holds the empty string.  In particular, where no entry has
    id [pid], the read returns the empty string both before and after
    [handleParamChange pid ""], although the store has gained an entry
    for [pid]. *)
Theorem getParamValue_empty_string_ambiguous
    (h : heap) (e : ParamEditor) (vs : list ParamValue) (pid : Z) :
  store_values h e = Some vs →
  ((pid ∉ paramId <$> vs) → getParamValue pid e h = Some "") ∧
  (∀ (i : nat) o,
     vs !! i = Some o → paramId o = pid → value o = "" →
     (pid ∉ paramId <$> take i vs) →
     getParamValue pid e h = Some "") ∧
  (NoDup (paramId <$> vs) →
   ∀ o, o ∈ vs → paramId o = pid → value o = "" →
        getParamValue pid e h = Some "") ∧
  (∃ e' h' vs',
     handleParamChange pid "" e h = Some (e', h') ∧
     store_values h' e' = Some vs' ∧
     pid ∈ paramId <$> vs' ∧
     getParamValue pid e' h' = Some "" ∧
     ((pid ∉ paramId <$> vs) → getParamValue pid e h = getParamValue pid e' h')).
Proof.
  intros Hvs. rewrite (getParamValue_values _ _ _ _ Hvs).
  assert ((pid ∉ paramId <$> vs) → Some (read_value pid vs) = Some "") as Habs.
  { intros N. by rewrite read_value_absent. }
  split; [done |]. split; [| split].
  - intros i o L Ho Hv N. unfold read_value.
    rewrite (find_first (entry_has pid) vs i o); [by rewrite Hv | done | |].
    + by apply entry_has_true.
    + by apply no_entry_has.
  - intros ND o Hin Ho Hv. unfold read_value.
    rewrite <- Ho, (find_NoDup vs o ND Hin). by rewrite Hv.
  - destruct (handleParamChange_values h e vs pid "" Hvs)
      as (e' & h' & E & _ & _ & _ & V).
    exists e', h', (updater pid "" vs). split; [done |]. split; [done |].
    split; [apply updater_has_id |].
    rewrite (getParamValue_values _ _ _ _ V), read_value_updater_eq.
    split; [done |]. exact Habs.
Qed.

Lemma getParamValue_empty_string_ambiguous_witness :
  getParamValue 3 test_editor test_heap = Some "" ∧
  ∃ e' h' vs',
    handleParamChange 3 "" test_editor test_heap = Some (e', h') ∧
    store_values h' e' = Some vs' ∧
    3 ∈ paramId <$> vs' ∧
    getParamValue 3 e' h' = Some "".
Proof.
  destruct (getParamValue_empty_string_ambiguous
              test_heap test_editor testValues 3)
    as (Habs & _ & _ & e' & h' & vs' & E & V & Hin & R & _).
  - vm_compute. reflexivity.
  - split.
    + apply Habs. apply (bool_decide_unpack _). vm_compute. exact I.
    + by exists e', h', vs'.
Defined.


(** * Rendering and typing *)

Section Rendering.
Implicit Types (h : heap) (e : ParamEditor) (vs : list ParamValue).

(** [render] builds from the heap the list [render_values] builds from
    the entries. *)
Lemma render_render_values h e vs :
  store_values h e = Some vs →
  render e h = Some (render_values (params (props e)) vs).
Proof.
  intros Hvs. unfold render, render_values.
  induction (params (props e)) as [|parameter ps IH]; [done |].
  rewrite fmap_cons. simpl.
  rewrite (getParamValue_values _ _ _ _ Hvs). simpl.
  by rewrite IH.
Qed.

Lemma render_values_lookup ps vs (k : nat) el :
  render_values ps vs !! k = Some el ↔
  ∃ parameter,
    ps !! k = Some parameter ∧
    el = {| key := id parameter;
            element_props :=
              {| ParamInput.param := parameter;
                 ParamInput.value := read_value (id parameter) vs;
                 ParamInput.onChange := handleParamChange |} |}.
Proof.
  unfold render_values. rewrite list_lookup_fmap.
  destruct (ps !! k) as [parameter|]; simpl.
  - split.
    + intros [= <-]. by exists parameter.
    + by intros (? & [= <-] & ->).
  - split; [done | by intros (? & ? & _)].
Qed.

(** What [read_value] returns is the value of the entry found. *)
Lemma read_value_first vs (i : nat) o :
  vs !! i = Some o → (paramId o ∉ paramId <$> take i vs) →
  read_value (paramId o) vs = value o.
Proof.
  intros L N%no_entry_has. unfold read_value.
  by rewrite (find_first _ _ i o L (proj2 (entry_has_true _ _) eq_refl) N).
Qed.
End Rendering.

(** X1.  On a readable store [render] completes and yields one element
    per parameter definition, in the order of [params], keyed by the
    definition's id and bound to [handleParamChange].  The value it
    passes is the empty string when the store has no entry for the id,
    and otherwise the value of the first entry with that id. *)
Theorem render_one_input_per_param
    (h : heap) (e : ParamEditor) (vs : list ParamValue) :
  store_values h e = Some vs →
  ∃ els,
    render e h = Some els ∧
    (ParamInput.param ∘ element_props) <$> els = params (props e) ∧
    key <$> els = id <$> params (props e) ∧
    ∀ el, el ∈ els →
      ParamInput.onChange (element_props el) = handleParamChange ∧
      ((id (ParamInput.param (element_props el)) ∉ paramId <$> vs) →
         ParamInput.value (element_props el) = "") ∧
      (∀ (i : nat) o,
         vs !! i = Some o →
         paramId o = id (ParamInput.param (element_props el)) →
         (paramId o ∉ paramId <$> take i vs) →
         ParamInput.value (element_props el) = value o).
Proof.
  intros Hvs. exists (render_values (params (props e)) vs).
  split; [by apply render_render_values |].
  unfold render_values. split; [| split].
  - rewrite <- list_fmap_compose. by rewrite <- (list_fmap_id (params (props e))) at 2.
  - by rewrite <- list_fmap_compose.
  - intros el (parameter & -> & _)%list_elem_of_fmap. simpl.
    split; [done |]. split.
    + apply read_value_absent.
    + intros i o L <- N. by apply (read_value_first vs i).
Qed.

Lemma render_one_input_per_param_witness :
  ∃ els,
    render test_editor test_heap = Some els ∧
    (ParamInput.value ∘ element_props) <$> els
    = ["повседневное"; "макси"; ""].
Proof.
  destruct (render_one_input_per_param test_heap test_editor testValues)
    as (els & E & _).
  - vm_compute. reflexivity.
  - exists els. split; [exact E |].
    assert (Some els = render test_editor test_heap) as E' by done.
    vm_compute in E'. injection E' as ->. reflexivity.
Defined.

(** X2.  Typing [text] into a rendered input (its [handleInputChange])
    writes [text] under that input's parameter id: the store keeps its
    ids, or gains that one id at the end, and it is the id of a
    parameter definition.  The next [render] has the same elements in
    the same places; those for that id show [text], all others show what
    they showed before. *)
Theorem typing_shows_in_input
    (h : heap) (e : ParamEditor) (vs : list ParamValue)
    (els : list Element) (k : nat) (el : Element) (text : string) :
  store_values h e = Some vs →
  render e h = Some els →
  els !! k = Some el →
  ∃ e' h' vs' els',
    ParamInput.handleInputChange (element_props el) text e h = Some (e', h') ∧
    store_values h' e' = Some vs' ∧
    (paramId <$> vs' = paramId <$> vs ∨
     paramId <$> vs' = (paramId <$> vs) ++ [key el]) ∧
    key el ∈ id <$> params (props e) ∧
    render e' h' = Some els' ∧
    length els' = length els ∧
    ∀ (j : nat) elj,
      els !! j = Some elj →
      ∃ elj',
        els' !! j = Some elj' ∧
        key elj' = key elj ∧
        ParamInput.param (element_props elj')
        = ParamInput.param (element_props elj) ∧
        (key elj = key el → ParamInput.value (element_props elj') = text) ∧
        (key elj ≠ key el →
           ParamInput.value (element_props elj')
           = ParamInput.value (element_props elj)).
Proof.
  intros Hvs Hr Hk.
  rewrite (render_render_values _ _ _ Hvs) in Hr. injection Hr as <-.
  apply render_values_lookup in Hk as (parameter & Lp & ->).
  unfold ParamInput.handleInputChange. simpl.
  destruct (handleParamChange_values h e vs (id parameter) text Hvs)
    as (e' & h' & E & _ & P & _ & V).
  exists e', h', (updater (id parameter) text vs),
    (render_values (params (props e)) (updater (id parameter) text vs)).
  split; [done |]. split; [done |]. split.
  { destruct (decide (id parameter ∈ paramId <$> vs)).
    - left. by apply ids_updater_in.
    - right. by apply ids_updater_notin. }
  split.
  { apply list_elem_of_fmap. exists parameter.
    split; [done |]. by apply list_elem_of_lookup_2 in Lp. }
  split; [by rewrite (render_render_values _ _ _ V), P |].
  split; [unfold render_values; by rewrite !length_fmap |].
  intros j elj (pj & Lj & ->)%render_values_lookup.
  eexists. split; [apply render_values_lookup; by exists pj |]. simpl.
  split; [done |]. split; [done |]. split.
  - intros ->. apply read_value_updater_eq.
  - intros Hne. apply read_value_updater_ne. congruence.
Qed.

Lemma typing_shows_in_input_witness :
  ∃ el e' h' els' el',
    default [] (render test_editor test_heap) !! 2%nat = Some el ∧
    ParamInput.handleInputChange (element_props el) "хлопок"
      test_editor test_heap = Some (e', h') ∧
    render e' h' = Some els' ∧
    els' !! 2%nat = Some el' ∧
    ParamInput.value (element_props el') = "хлопок".
Proof.
  destruct (render test_editor test_heap) as [els|] eqn:Hr;
    [| vm_compute in Hr; discriminate].
  destruct (els !! 2%nat) as [el|] eqn:Hk;
    [| vm_compute in Hr; injection Hr as <-; discriminate].
  destruct (typing_shows_in_input
              test_heap test_editor testValues els 2 el "хлопок")
    as (e' & h' & vs' & els' & E & _ & _ & _ & R & _ & Hshow);
    [vm_compute; reflexivity | exact Hr | exact Hk |].
  destruct (Hshow 2%nat el Hk) as (el' & L & _ & _ & Hv & _).
  exists el, e', h', els', el'. simpl.
  split; [exact Hk |]. split; [exact E |]. split; [exact R |].
  split; [exact L |]. by apply Hv.
Defined.

(** X3.  An edit under an id that no parameter definition has is kept
    in the store but is not shown: [render] after it returns what it
    returned before. *)
Theorem render_ignores_unknown_ids
    (h : heap) (e : ParamEditor) (vs : list ParamValue)
    (pid : Z) (val : string) :
  store_values h e = Some vs →
  (pid ∉ id <$> params (props e)) →
  ∃ e' h' vs',
    handleParamChange pid val e h = Some (e', h') ∧
    store_values h' e' = Some vs' ∧
    pid ∈ paramId <$> vs' ∧
    is_Some (render e h) ∧
    render e' h' = render e h.
Proof.
  intros Hvs N.
  destruct (handleParamChange_values h e vs pid val Hvs)
    as (e' & h' & E & _ & P & _ & V).
  exists e', h', (updater pid val vs).
  split; [done |]. split; [done |]. split; [apply updater_has_id |].
  rewrite (render_render_values _ _ _ V), (render_render_values _ _ _ Hvs), P.
  split; [eauto |]. f_equal. unfold render_values.
  apply Forall_fmap_ext_1, Forall_forall. intros parameter Hin.
  rewrite read_value_updater_ne; [done |].
  intros ->. apply N, list_elem_of_fmap. eauto.
Qed.

Lemma render_ignores_unknown_ids_witness :
  ∃ e' h',
    handleParamChange 7 "шёлк" test_editor test_heap = Some (e', h') ∧
    getParamValue 7 e' h' = Some "шёлк" ∧
    render e' h' = render test_editor test_heap.
Proof.
  destruct (render_ignores_unknown_ids
              test_heap test_editor testValues 7 "шёлк")
    as (e' & h' & vs' & E & V & _ & _ & R).
  - vm_compute. reflexivity.
  - apply (bool_decide_unpack _). vm_compute. exact I.
  - exists e', h'. split; [exact E |]. split; [| exact R].
    assert (handleParamChange 7 "шёлк" test_editor test_heap = Some (e', h'))
      as E' by exact E.
    vm_compute in E'. injection E' as <- <-. vm_compute. reflexivity.
Defined.

(** * The harness's check for a new parameter *)

Section NewParameter.
Implicit Types (h : heap) (e : ParamEditor) (vs : list ParamValue).

Lemma nonempty_length (s : string) : (0 < String.length s)%nat ↔ s ≠ "".
Proof. destruct s; simpl; split; (done || lia). Qed.

Lemma entry_is_new_param_true (o : ParamValue) :
  entry_is_new_param o = true ↔ paramId o = 3 ∧ value o ≠ "".
Proof.
  unfold entry_is_new_param.
  rewrite andb_true_iff, !bool_decide_eq_true. by rewrite nonempty_length.
Qed.

Lemma existsb_new_param_values h (elems : list loc) vs :
  Forall2 (λ l o, get_paramValue h l = Some o) elems vs →
  existsb (is_new_param h) elems = existsb entry_is_new_param vs.
Proof.
  induction 1 as [|l o elems vs Hl _ IH]; simpl; [done |].
  rewrite IH. f_equal. unfold is_new_param. by rewrite Hl.
Qed.

Lemma existsb_new_param_true vs :
  existsb entry_is_new_param vs = true ↔
  ∃ o, o ∈ vs ∧ paramId o = 3 ∧ value o ≠ "".
Proof.
  rewrite existsb_exists. split.
  - intros (o & Hin%list_elem_of_In & Ho%entry_is_new_param_true). eauto.
  - intros (o & Hin%list_elem_of_In & Ho%entry_is_new_param_true). eauto.
Qed.

(** The test of [checkAfterEdit] on an object [getModel] returned is
    [some] over the entries of the store. *)
Lemma newParameterAdded_values h e r m vs :
  get_model h r = Some m →
  paramValues m = st_paramValues (state e) →
  store_values h e = Some vs →
  newParameterAdded r h = Some (existsb entry_is_new_param vs).
Proof.
  intros G Hp (elems & Ha & F)%array_values_Some.
  unfold newParameterAdded. rewrite G. simpl. rewrite Hp, Ha. simpl.
  by rewrite (existsb_new_param_values _ _ _ F).
Qed.

(** [startInitialTests] with the component mounted: the model taken
    from it becomes [initial], the other fields stay, one alert is
    shown. *)
Lemma startInitialTests_values h a e vs0 cs vs :
  editorRef a = Some e →
  model_value h (model (props e)) = Some (vs0, cs) →
  store_values h e = Some vs →
  ∃ r h',
    startInitialTests a h
    = Some ({| editorRef := Some e;
               testsResult :=
                 {| initial := Some r;
                    afterEdit := afterEdit (testsResult a);
                    initialVsAfterEdit := initialVsAfterEdit (testsResult a);
                    hasNewParam := hasNewParam (testsResult a) |};
               alerts := alerts a ++ [ChangeFieldsThenCheck] |}, h') ∧
    h ⊆ h' ∧
    model_value h' r = Some (vs, cs).
Proof.
  intros Href Hm Hvs.
  destruct (getModel_values h e vs0 cs vs Hm Hvs)
    as (r & h' & m & E & S & _ & _ & _ & V).
  exists r, h'. split; [| done].
  unfold startInitialTests. rewrite Href.
  by rewrite (bind_Some _ _ _ _ _ E).
Qed.

(** [checkAfterEdit] past its guard: the model taken from the component
    becomes [afterEdit], and [hasNewParam] is [some] over the entries of
    the store. *)
Lemma checkAfterEdit_values JSON_stringify h a e r0 vs0 cs vs :
  editorRef a = Some e →
  initial (testsResult a) = Some r0 →
  model_value h (model (props e)) = Some (vs0, cs) →
  store_values h e = Some vs →
  ∃ r h' changed,
    checkAfterEdit JSON_stringify a h
    = Some ({| editorRef := Some e;
               testsResult :=
                 {| initial := Some r0;
                    afterEdit := Some r;
                    initialVsAfterEdit := changed;
                    hasNewParam := existsb entry_is_new_param vs |};
               alerts := alerts a |}, h') ∧
    h ⊆ h' ∧
    model_value h' r = Some (vs, cs).
Proof.
  intros Href Hinit Hm Hvs.
  destruct (getModel_values h e vs0 cs vs Hm Hvs)
    as (r & h' & m & E & S & _ & _ & G & V).
  eexists r, h', _. split; [| done].
  unfold checkAfterEdit. rewrite Href, Hinit.
  rewrite (bind_Some _ _ _ _ _ E).
  erewrite bind_Some by reflexivity.
  erewrite bind_Some.
  - reflexivity.
  - apply reading_Some.
    apply (newParameterAdded_values _ e _ _ vs G); [done |].
    by apply (array_values_weaken h).
Qed.

(** The entry found for an id, and what [read_value] returns. *)
Lemma find_Some_read_value pid vs val :
  find (entry_has pid) vs = Some {| paramId := pid; value := val |} ↔
  pid ∈ paramId <$> vs ∧ read_value pid vs = val.
Proof.
  unfold read_value. split.
  - intros Hf. rewrite Hf. split; [| done].
    apply find_some in Hf as [Hin%list_elem_of_In _].
    apply list_elem_of_fmap. by exists {| paramId := pid; value := val |}.
  - intros [Hin Hv].
    destruct (find_spec (entry_has pid) vs) as [[_ F] | (i & o & Hf & _ & Ho & _)].
    + by apply no_entry_has in F.
    + rewrite Hf in *. apply entry_has_true in Ho.
      destruct o as [p v]. simpl in *. by subst.
Qed.
End NewParameter.



(** X5.  With the component mounted and readable: press the first
    button, write [val] under id 3, press the second button.  All three
    complete, one alert was shown, and [hasNewParam] is true when [val]
    is non-empty; it is false when [val] is empty and the store had no
    entry for id 3.  Without the first button, the same edit followed by
    the second button leaves [testsResult] as it was. *)
Theorem hasNewParam_after_edit_of_3
    (JSON_stringify : heap → loc → string) (h : heap) (a : App)
    (e : ParamEditor) (vs0 vs : list ParamValue) (cs : list Color)
    (val : string) :
  editorRef a = Some e →
  model_value h (model (props e)) = Some (vs0, cs) →
  store_values h e = Some vs →
  (∃ a1 h1 a2 h2 a3 h3,
     startInitialTests a h = Some (a1, h1) ∧
     edit_mounted 3 val a1 h1 = Some (a2, h2) ∧
     checkAfterEdit JSON_stringify a2 h2 = Some (a3, h3) ∧
     alerts a3 = alerts a ++ [ChangeFieldsThenCheck] ∧
     (val ≠ "" → hasNewParam (testsResult a3) = true) ∧
     (val = "" → (3 ∉ paramId <$> vs) →
        hasNewParam (testsResult a3) = false)) ∧
  (initial (testsResult a) = None →
   ∃ a2 h2,
     edit_mounted 3 val a h = Some (a2, h2) ∧
     checkAfterEdit JSON_stringify a2 h2 = Some (a2, h2) ∧
     testsResult a2 = testsResult a).
Proof.
  intros Href Hm Hvs. split.
  - destruct (startInitialTests_values h a e vs0 cs vs Href Hm Hvs)
      as (r0 & h1 & E1 & S1 & _).
    assert (store_values h1 e = Some vs) as Hvs1
      by by apply (array_values_weaken h).
    destruct (handleParamChange_values h1 e vs 3 val Hvs1)
      as (e' & h2 & E2 & S2 & P2 & _ & V2).
    assert (model_value h2 (model (props e')) = Some (vs0, cs)) as Hm2.
    { rewrite P2. apply (model_value_weaken h); [by etrans | done]. }
    set (a1 := {| editorRef := Some e;
                  testsResult :=
                    {| initial := Some r0;
                       afterEdit := afterEdit (testsResult a);
                       initialVsAfterEdit := initialVsAfterEdit (testsResult a);
                       hasNewParam := hasNewParam (testsResult a) |};
                  alerts := alerts a ++ [ChangeFieldsThenCheck] |}) in *.
    set (a2 := {| editorRef := Some e';
                  testsResult := testsResult a1;
                  alerts := alerts a1 |}).
    destruct (checkAfterEdit_values JSON_stringify h2 a2 e' r0 vs0 cs _
                eq_refl eq_refl Hm2 V2) as (r & h3 & changed & E3 & _ & _).
    eexists a1, h1, a2, h2, _, h3. split; [exact E1 |]. split.
    { unfold edit_mounted. simpl. by rewrite (bind_Some _ _ _ _ _ E2). }
    split; [exact E3 |]. simpl. split; [done |]. split.
    + intros Hv. apply existsb_new_param_true.
      exists {| paramId := 3; value := val |}. split; [| done].
      apply list_elem_of_In, (find_some (entry_has 3)), find_updater_eq.
    + intros -> N. rewrite (updater_absent _ _ _ N).
      rewrite existsb_app. simpl. rewrite orb_false_r.
      apply not_true_is_false.
      intros (o & Hin & Ho & _)%existsb_new_param_true.
      apply N, list_elem_of_fmap. eauto.
  - intros Hinit.
    destruct (handleParamChange_values h e vs 3 val Hvs)
      as (e' & h2 & E2 & _).
    eexists _, h2. split; [| split].
    + unfold edit_mounted. rewrite Href. by rewrite (bind_Some _ _ _ _ _ E2).
    + unfold checkAfterEdit. simpl. by rewrite Hinit.
    + done.
Qed.

Lemma hasNewParam_after_edit_of_3_witness :
  (∃ a1 h1 a2 h2 a3 h3,
     startInitialTests test_app test_heap = Some (a1, h1) ∧
     edit_mounted 3 "хлопок" a1 h1 = Some (a2, h2) ∧
     checkAfterEdit (λ _ _, "") a2 h2 = Some (a3, h3) ∧
     hasNewParam (testsResult a3) = true) ∧
  (∃ a2 h2,
     edit_mounted 3 "хлопок" test_app test_heap = Some (a2, h2) ∧
     checkAfterEdit (λ _ _, "") a2 h2 = Some (a2, h2) ∧
     hasNewParam (testsResult a2) = false).
Proof.
  destruct (hasNewParam_after_edit_of_3
              (λ _ _, "") test_heap test_app test_editor
              testValues testValues [] "хлопок")
    as [(a1 & h1 & a2 & h2 & a3 & h3 & E1 & E2 & E3 & _ & Hb & _) Hg].
  - reflexivity.
  - vm_compute. reflexivity.
  - vm_compute. reflexivity.
  - split.
    + exists a1, h1, a2, h2, a3, h3. do 3 (split; [done |]).
      apply Hb. discriminate.
    + destruct (Hg eq_refl) as (a2' & h2' & E2' & E3' & Ht).
      exists a2', h2'. do 2 (split; [done |]). by rewrite Ht.
Defined.

(** * How edits compose *)

Section Composition.
Implicit Types (vs : list ParamValue) (o : ParamValue) (pid : Z).

(** An edit leaves the entries as they were exactly when the entry
    found for the id already holds the value written. *)
Lemma updater_same_iff pid val vs :
  updater pid val vs = vs ↔
  find (entry_has pid) vs = Some {| paramId := pid; value := val |}.
Proof.
  destruct (updater_cases pid val vs) as [[N ->] | (i & o & L & Ho & N & ->)].
  - apply no_entry_has in N. rewrite (find_none _ _ N). split; [| done].
    intros E. apply (f_equal length) in E. rewrite length_app in E.
    simpl in E. lia.
  - apply no_entry_has in N.
    rewrite (find_first _ _ i o L (proj2 (entry_has_true _ _) Ho) N). split.
    + intros E. pose proof (lookup_lt_Some _ _ _ L) as Hi.
      rewrite <- E in L. rewrite list_lookup_insert_eq in L by done.
      congruence.
    + intros [= ->]. by apply list_insert_id.
Qed.

(** The first entry for an id stays the first after another id's entry
    is replaced. *)
Lemma updater_present_after_insert pid val vs (i j : nat) o new :
  vs !! i = Some o → paramId o = pid →
  (pid ∉ paramId <$> take i vs) →
  i ≠ j → paramId new ≠ pid →
  updater pid val (<[j := new]> vs)
  = <[i := {| paramId := pid; value := val |}]> (<[j := new]> vs).
Proof.
  intros L Ho N Hij Hnew. apply (updater_present _ _ _ i o); [| done |].
  - by rewrite list_lookup_insert_ne.
  - apply no_entry_has. apply no_entry_has in N.
    destruct (decide (j < i)%nat).
    + rewrite take_insert_lt by done.
      apply Forall_insert; [done | by apply entry_has_false].
    + by rewrite take_insert_ge by lia.
Qed.

Lemma updater_present_after_append pid val vs (i : nat) o new :
  vs !! i = Some o → paramId o = pid →
  (pid ∉ paramId <$> take i vs) →
  updater pid val (vs ++ [new])
  = <[i := {| paramId := pid; value := val |}]> vs ++ [new].
Proof.
  intros L Ho N. pose proof (lookup_lt_Some _ _ _ L) as Hi.
  rewrite (updater_present _ _ _ i o).
  - by rewrite insert_app_l.
  - by rewrite lookup_app_l.
  - done.
  - by rewrite take_app_le by lia.
Qed.

Lemma updater_absent_after_updater pid pid' val val' vs :
  pid ≠ pid' → (pid' ∉ paramId <$> vs) →
  updater pid' val' (updater pid val vs)
  = updater pid val vs ++ [ {| paramId := pid'; value := val' |} ].
Proof.
  intros Hne N. apply updater_absent.
  destruct (decide (pid ∈ paramId <$> vs)).
  - by rewrite ids_updater_in.
  - rewrite ids_updater_notin by done. rewrite not_elem_of_app.
    split; [done |]. rewrite list_elem_of_singleton. congruence.
Qed.

(** Edits of two different ids, at least one of them in the store, give
    the same entries in either order. *)
Lemma updater_commute pid1 pid2 val1 val2 vs :
  pid1 ≠ pid2 →
  (pid1 ∈ paramId <$> vs) ∨ (pid2 ∈ paramId <$> vs) →
  updater pid1 val1 (updater pid2 val2 vs)
  = updater pid2 val2 (updater pid1 val1 vs).
Proof.
  intros Hne Hin.
  destruct (updater_cases pid1 val1 vs)
    as [[N1 E1] | (i1 & o1 & L1 & Ho1 & N1 & E1)];
  destruct (updater_cases pid2 val2 vs)
    as [[N2 E2] | (i2 & o2 & L2 & Ho2 & N2 & E2)].
  - by destruct Hin.
  - rewrite (updater_absent_after_updater pid2 pid1) by done.
    rewrite E1, E2.
    by rewrite (updater_present_after_append pid2 val2 vs i2 o2).
  - rewrite (updater_absent_after_updater pid1 pid2) by done.
    rewrite E1, E2.
    by rewrite (updater_present_after_append pid1 val1 vs i1 o1).
  - rewrite E1, E2.
    assert (i1 ≠ i2) as Hi by (intros ->; congruence).
    rewrite (updater_present_after_insert pid1 val1 vs i1 i2 o1) by done.
    rewrite (updater_present_after_insert pid2 val2 vs i2 i1 o2)
      by (done || congruence).
    by apply list_insert_insert_ne.
Qed.

Lemma updater_both_new pid1 pid2 val1 val2 vs :
  pid1 ≠ pid2 →
  (pid1 ∉ paramId <$> vs) → (pid2 ∉ paramId <$> vs) →
  updater pid2 val2 (updater pid1 val1 vs)
  = vs ++ [ {| paramId := pid1; value := val1 |};
            {| paramId := pid2; value := val2 |} ].
Proof.
  intros Hne N1 N2.
  rewrite (updater_absent_after_updater pid1 pid2) by done.
  rewrite (updater_absent _ _ _ N1). by rewrite <- app_assoc.
Qed.

(** The ids of the store are only ever extended at the end. *)
Lemma ids_updater_prefix pid val vs :
  (paramId <$> vs) `prefix_of` (paramId <$> updater pid val vs).
Proof.
  destruct (decide (pid ∈ paramId <$> vs)).
  - by rewrite ids_updater_in.
  - rewrite ids_updater_notin by done. by apply prefix_app_r.
Qed.

Lemma length_updater pid val vs :
  (length vs ≤ length (updater pid val vs) ≤ S (length vs))%nat.
Proof.
  destruct (updater_cases pid val vs) as [[_ ->] | (i & o & _ & _ & _ & ->)].
  - rewrite length_app. simpl. lia.
  - rewrite length_insert. lia.
Qed.

Lemma updaters_grow us : ∀ vs,
  (paramId <$> vs) `prefix_of` (paramId <$> updaters us vs) ∧
  (length vs ≤ length (updaters us vs) ≤ length vs + length us)%nat.
Proof.
  unfold updaters. induction us as [|u us IH]; intros vs; simpl.
  - split; [done | lia].
  - destruct (IH (updater u.1 u.2 vs)) as [Hp Hl].
    pose proof (length_updater u.1 u.2 vs). split; [| lia].
    etrans; [apply ids_updater_prefix | exact Hp].
Qed.
End Composition.

(** X6.  Take the model from the component, make one edit, take the
    model again.  Both calls complete and return different objects; the
    first still has the entries of before the edit, the second those of
    after it.  Their contents are equal exactly when the store already
    had an entry for the id and [getParamValue] already returned the
    value written; in every other case they differ. *)
Theorem export_differs_after_edit
    (h : heap) (e : ParamEditor) (vs0 vs : list ParamValue) (cs : list Color)
    (pid : Z) (val : string) :
  model_value h (model (props e)) = Some (vs0, cs) →
  store_values h e = Some vs →
  ∃ r0 h0 e' h1 r1 h2 vs',
    getModel e h = Some (r0, h0) ∧
    handleParamChange pid val e h0 = Some (e', h1) ∧
    store_values h1 e' = Some vs' ∧
    getModel e' h1 = Some (r1, h2) ∧
    r0 ≠ r1 ∧
    model_value h2 r0 = Some (vs, cs) ∧
    model_value h2 r1 = Some (vs', cs) ∧
    (model_value h2 r0 = model_value h2 r1 ↔
     (pid ∈ paramId <$> vs) ∧ getParamValue pid e h = Some val).
Proof.
  intros Hm Hvs.
  destruct (getModel_values h e vs0 cs vs Hm Hvs)
    as (r0 & h0 & m0 & E0 & S0 & _ & _ & G0 & V0).
  assert (store_values h0 e = Some vs) as Hvs0
    by by apply (array_values_weaken h).
  destruct (handleParamChange_values h0 e vs pid val Hvs0)
    as (e' & h1 & E1 & S1 & P1 & _ & V1).
  assert (model_value h1 (model (props e')) = Some (vs0, cs)) as Hm1.
  { rewrite P1. apply (model_value_weaken h); [by etrans | done]. }
  destruct (getModel_values h1 e' vs0 cs _ Hm1 V1)
    as (r1 & h2 & m1 & E2 & S2 & F2 & _ & _ & V2).
  assert (model_value h2 r0 = Some (vs, cs)) as V0'.
  { apply (model_value_weaken h0); [by etrans | done]. }
  exists r0, h0, e', h1, r1, h2, (updater pid val vs).
  do 4 (split; [done |]). split.
  { intros ->. apply (get_model_weaken _ _ _ _ S1) in G0.
    unfold get_model in G0. by rewrite F2 in G0. }
  split; [done |]. split; [done |].
  rewrite V0', V2, (getParamValue_values _ _ _ _ Hvs).
  split.
  - intros [= Heq]. symmetry in Heq.
    apply updater_same_iff, find_Some_read_value in Heq as [Hin ->]. done.
  - intros [Hin [= Hr]]. f_equal. f_equal. symmetry.
    by apply updater_same_iff, find_Some_read_value.
Qed.

Lemma export_differs_after_edit_witness :
  ∃ r0 h0 e' h1 r1 h2,
    getModel test_editor test_heap = Some (r0, h0) ∧
    handleParamChange 3 "хлопок" test_editor h0 = Some (e', h1) ∧
    getModel e' h1 = Some (r1, h2) ∧
    model_value h2 r0 ≠ model_value h2 r1.
Proof.
  destruct (export_differs_after_edit
              test_heap test_editor testValues testValues [] 3 "хлопок")
    as (r0 & h0 & e' & h1 & r1 & h2 & vs' & E0 & E1 & _ & E2 & _ & _ & _ & Hiff).
  - vm_compute. reflexivity.
  - vm_compute. reflexivity.
  - exists r0, h0, e', h1, r1, h2. do 3 (split; [done |]).
    intros Heq. apply Hiff in Heq as [_ Hr].
    vm_compute in Hr. discriminate.
Defined.

(** X7.  Two edits of different ids can be made in either order: both
    orders complete and every id reads the same afterwards.  If at least
    one of the two ids was in the store, the stores hold the same
    sequence; if both are new, the two appended entries come in the
    order in which they were written. *)
Theorem edits_of_different_ids_commute
    (h : heap) (e : ParamEditor) (vs : list ParamValue)
    (pid1 pid2 : Z) (val1 val2 : string) :
  store_values h e = Some vs →
  pid1 ≠ pid2 →
  ∃ ea ha va eb hb vb,
    updates [(pid1, val1); (pid2, val2)] e h = Some (ea, ha) ∧
    store_values ha ea = Some va ∧
    updates [(pid2, val2); (pid1, val1)] e h = Some (eb, hb) ∧
    store_values hb eb = Some vb ∧
    (∀ pid, getParamValue pid ea ha = getParamValue pid eb hb) ∧
    ((pid1 ∈ paramId <$> vs) ∨ (pid2 ∈ paramId <$> vs) → va = vb) ∧
    ((pid1 ∉ paramId <$> vs) → (pid2 ∉ paramId <$> vs) →
       va = vs ++ [ {| paramId := pid1; value := val1 |};
                    {| paramId := pid2; value := val2 |} ] ∧
       vb = vs ++ [ {| paramId := pid2; value := val2 |};
                    {| paramId := pid1; value := val1 |} ]).
Proof.
  intros Hvs Hne.
  destruct (updates_values [(pid1, val1); (pid2, val2)] h e vs Hvs)
    as (ea & ha & Ea & _ & _ & _ & Va).
  destruct (updates_values [(pid2, val2); (pid1, val1)] h e vs Hvs)
    as (eb & hb & Eb & _ & _ & _ & Vb).
  unfold updaters in Va, Vb. simpl in Va, Vb.
  exists ea, ha, (updater pid2 val2 (updater pid1 val1 vs)),
    eb, hb, (updater pid1 val1 (updater pid2 val2 vs)).
  do 4 (split; [done |]). split; [| split].
  - intros pid.
    rewrite (getParamValue_values _ _ _ _ Va), (getParamValue_values _ _ _ _ Vb).
    f_equal.
    destruct (decide (pid = pid1)) as [-> | N1];
      [| destruct (decide (pid = pid2)) as [-> | N2]].
    + rewrite (read_value_updater_ne pid2 pid1) by done.
      by rewrite !read_value_updater_eq.
    + rewrite (read_value_updater_ne pid1 pid2 val1 (updater _ _ _)) by done.
      by rewrite !read_value_updater_eq.
    + by rewrite !read_value_updater_ne by done.
  - intros Hin. symmetry. by apply updater_commute.
  - intros N1 N2. split; by apply updater_both_new.
Qed.

Lemma edits_of_different_ids_commute_witness :
  ∃ ea ha eb hb,
    updates [(1, "вечернее"); (3, "хлопок")] test_editor test_heap
    = Some (ea, ha) ∧
    updates [(3, "хлопок"); (1, "вечернее")] test_editor test_heap
    = Some (eb, hb) ∧
    store_values ha ea = store_values hb eb.
Proof.
  destruct (edits_of_different_ids_commute
              test_heap test_editor testValues 1 3 "вечернее" "хлопок")
    as (ea & ha & va & eb & hb & vb & Ea & Va & Eb & Vb & _ & Heq & _).
  - vm_compute. reflexivity.
  - lia.
  - exists ea, ha, eb, hb. do 2 (split; [done |]). rewrite Va, Vb. f_equal.
    apply Heq. left. apply (bool_decide_unpack _). vm_compute. exact I.
Defined.

(** X8.  No series of edits removes or moves an entry: the sequence of
    ids before the edits is a prefix of the sequence after them, so every
    position keeps its id, and the store grows by at most one entry per
    edit. *)
Theorem edits_never_remove_entries
    (h : heap) (e : ParamEditor) (vs : list ParamValue)
    (us : list (Z * string)) :
  store_values h e = Some vs →
  ∃ e' h' vs',
    updates us e h = Some (e', h') ∧
    store_values h' e' = Some vs' ∧
    (paramId <$> vs) `prefix_of` (paramId <$> vs') ∧
    (length vs ≤ length vs' ≤ length vs + length us)%nat ∧
    (∀ (i : nat) o, vs !! i = Some o →
       ∃ o', vs' !! i = Some o' ∧ paramId o' = paramId o).
Proof.
  intros Hvs.
  destruct (updates_values us h e vs Hvs) as (e' & h' & E & _ & _ & _ & V).
  destruct (updaters_grow us vs) as [Hp Hl].
  exists e', h', (updaters us vs). do 4 (split; [done |]).
  intros i o L.
  assert ((paramId <$> vs) !! i = Some (paramId o)) as Li
    by by rewrite list_lookup_fmap, L.
  apply (prefix_lookup_Some _ _ _ _ Li) in Hp.
  rewrite list_lookup_fmap in Hp.
  destruct (updaters us vs !! i) as [o'|]; [| done].
  exists o'. split; [done |]. simpl in Hp. congruence.
Qed.

Lemma edits_never_remove_entries_witness :
  ∃ e' h' vs',
    updates [(2, ""); (3, "хлопок"); (2, "мини")] test_editor test_heap
    = Some (e', h') ∧
    store_values h' e' = Some vs' ∧
    (2 ≤ length vs' ≤ 5)%nat.
Proof.
  destruct (edits_never_remove_entries
              test_heap test_editor testValues
              [(2, ""); (3, "хлопок"); (2, "мини")])
    as (e' & h' & vs' & E & V & _ & Hl & _).
  - vm_compute. reflexivity.
  - by exists e', h', vs'.
Defined.

(** * What the copy made by [constructor] shares *)

Section ShallowCopy.
Implicit Types (h : heap) (e : ParamEditor) (vs : list ParamValue)
  (elems : list loc).

(** Overwriting an array cell leaves every entry object readable. *)
Lemma get_paramValue_insert_array h l o b old new :
  get_paramValue h l = Some o → get_array h b = Some old →
  get_paramValue (<[b := CArray new]> h) l = Some o.
Proof.
  unfold get_paramValue, get_array. intros Hl Hb.
  rewrite lookup_insert_ne; [done |].
  intros ->. by destruct (h !! l) as [[]|].
Qed.

Lemma array_values_insert_array h a vs b old new :
  array_values h a = Some vs → a ≠ b → get_array h b = Some old →
  array_values (<[b := CArray new]> h) a = Some vs.
Proof.
  intros (elems & Ha & F)%array_values_Some Hne Hb.
  apply array_values_Some. exists elems. split.
  - by rewrite get_array_insert_ne.
  - eapply Forall2_impl; [exact F |]. intros l o Hl.
    by eapply get_paramValue_insert_array.
Qed.

(** The state array [constructor] builds holds the element references
    of the model's array. *)
Lemma constructor_elements h p m elems :
  get_model h (model p) = Some m →
  get_array h (paramValues m) = Some elems →
  ∃ e h1,
    constructor p h = Some (e, h1) ∧
    h ⊆ h1 ∧
    props e = p ∧
    h !! st_paramValues (state e) = None ∧
    get_array h1 (st_paramValues (state e)) = Some elems.
Proof.
  intros Hm Ha. unfold constructor.
  rewrite (bind_Some _ _ h h m) by by apply reading_Some.
  erewrite bind_Some by by apply spread_Some.
  eexists _, _. split; [reflexivity |]. simpl.
  split; [apply alloc_extends |]. split; [done |].
  split; [apply fresh_unused | apply get_array_insert].
Qed.
End ShallowCopy.

(** X9.  Once the component is mounted, a caller pushing an entry onto
    the [paramValues] array of its own model changes that array only:
    the store keeps the entries it was mounted with and [getParamValue]
    returns what it returned before. *)
Theorem constructor_copy_shields_store
    (h : heap) (p : Props) (vs0 : list ParamValue) (cs : list Color)
    (o : ParamValue) :
  model_value h (model p) = Some (vs0, cs) →
  ∃ m e h1 h2,
    get_model h (model p) = Some m ∧
    constructor p h = Some (e, h1) ∧
    caller_pushes (model p) o h1 = Some (tt, h2) ∧
    array_values h2 (paramValues m) = Some (vs0 ++ [o]) ∧
    store_values h2 e = Some vs0 ∧
    (∀ pid, getParamValue pid e h2 = getParamValue pid e h1).
Proof.
  intros (m & Hm & Hv & _)%model_value_Some.
  destruct (constructor_values h p m vs0 Hm Hv) as (e & h1 & E & S & _ & F & V).
  pose proof (array_values_weaken _ _ _ _ S Hv) as Hv1.
  pose proof Hv1 as (elems & Ha1 & F1)%array_values_Some.
  set (x := fresh (dom h1)).
  set (h1' := <[x := CParamValue o]> h1).
  assert (h1 ⊆ h1') as S' by apply alloc_extends.
  assert (get_array h1' (paramValues m) = Some elems) as Ha1'
    by by apply (get_array_weaken h1).
  assert (st_paramValues (state e) ≠ paramValues m) as Hne.
  { intros Heq. rewrite Heq in F.
    destruct (array_values_is_Some _ _ _ Hv) as [c L]. congruence. }
  exists m, e, h1, (<[paramValues m := CArray (elems ++ [x])]> h1').
  split; [done |]. split; [done |]. split.
  { unfold caller_pushes.
    rewrite (bind_Some _ _ h1 h1 m)
      by (apply reading_Some; by apply (get_model_weaken h)).
    erewrite bind_Some by reflexivity.
    by apply array_push_Some. }
  assert (store_values (<[paramValues m := CArray (elems ++ [x])]> h1') e
          = Some vs0) as V2.
  { apply (array_values_insert_array _ _ _ _ elems); [| done | done].
    by apply (array_values_weaken h1). }
  split; [| split; [done |]].
  - apply array_values_Some. exists (elems ++ [x]).
    split; [apply get_array_insert |]. apply Forall2_app.
    + eapply Forall2_impl; [exact F1 |]. intros l ol Hl.
      apply (get_paramValue_insert_array _ _ _ _ elems); [| done].
      by apply (get_paramValue_weaken h1).
    + constructor; [| constructor].
      apply (get_paramValue_insert_array _ _ _ _ elems); [| done].
      apply get_paramValue_insert.
  - intros pid.
    by rewrite (getParamValue_values _ _ _ _ V2),
               (getParamValue_values _ _ _ _ V).
Qed.

Lemma constructor_copy_shields_store_witness :
  ∃ m e h1 h2,
    get_model test_model_heap test_model = Some m ∧
    constructor test_props test_model_heap = Some (e, h1) ∧
    caller_pushes test_model {| paramId := 3; value := "хлопок" |} h1
    = Some (tt, h2) ∧
    store_values h2 e = Some testValues ∧
    getParamValue 3 e h2 = getParamValue 3 e h1.
Proof.
  destruct (constructor_copy_shields_store
              test_model_heap test_props testValues []
              {| paramId := 3; value := "хлопок" |})
    as (m & e & h1 & h2 & Gm & E & Ep & _ & V & R).
  - vm_compute. reflexivity.
  - by exists m, e, h1, h2.
Defined.

(** X10.  The copy [constructor] makes is shallow: the state array
    holds the very entry objects of the model's array.  So a caller that
    assigns a new [value] to the entry at index [i] of its own model,
    that entry being the first with its id, changes what the store
    reads under that id. *)
Theorem constructor_copy_shares_entries
    (h : heap) (p : Props) (vs0 : list ParamValue) (cs : list Color)
    (i : nat) (o : ParamValue) (v : string) :
  model_value h (model p) = Some (vs0, cs) →
  vs0 !! i = Some o →
  (paramId o ∉ paramId <$> take i vs0) →
  ∃ m e h1 h2,
    get_model h (model p) = Some m ∧
    constructor p h = Some (e, h1) ∧
    get_array h1 (st_paramValues (state e)) = get_array h (paramValues m) ∧
    getParamValue (paramId o) e h1 = Some (value o) ∧
    caller_sets_value (model p) i v h1 = Some (tt, h2) ∧
    getParamValue (paramId o) e h2 = Some v.
Proof.
  intros (m & Hm & Hv & _)%model_value_Some L N.
  pose proof Hv as (elems & Ha & F)%array_values_Some.
  destruct (constructor_elements h p m elems Hm Ha)
    as (e & h1 & E & S & _ & Fst & Hst).
  destruct (Forall2_lookup_r _ _ _ _ _ F L) as (l & Ll & Hl).
  pose proof (get_paramValue_weaken _ _ _ _ S Hl) as Hl1.
  assert (Forall2 (λ l o, get_paramValue h1 l = Some o) elems vs0) as F1.
  { eapply Forall2_impl; [exact F |]. intros ? ?. by apply get_paramValue_weaken. }
  assert (store_values h1 e = Some vs0) as V1.
  { apply array_values_Some. by exists elems. }
  set (new := {| paramId := paramId o; value := v |}).
  exists m, e, h1, (<[l := CParamValue new]> h1).
  split; [done |]. split; [done |]. split; [by rewrite Hst, Ha |]. split.
  { rewrite (getParamValue_values _ _ _ _ V1). f_equal.
    by apply (read_value_first vs0 i). }
  split.
  { unfold caller_sets_value.
    rewrite (bind_Some _ _ h1 h1 m)
      by (apply reading_Some; by apply (get_model_weaken h)).
    rewrite (bind_Some _ _ h1 h1 elems)
      by (apply reading_Some; by apply (get_array_weaken h)).
    rewrite (bind_Some _ _ h1 h1 l) by by apply reading_Some.
    by rewrite (bind_Some _ _ h1 h1 o) by by apply reading_Some. }
  unfold getParamValue.
  assert (get_array (<[l := CParamValue new]> h1) (st_paramValues (state e))
          = Some elems) as ->.
  { rewrite get_array_insert_ne; [done |].
    intros ->. unfold get_array in Hst. unfold get_paramValue in Hl1.
    by destruct (h1 !! st_paramValues (state e)) as [[]|]. }
  simpl.
  rewrite (find_first _ elems i l Ll).
  - by rewrite get_paramValue_insert.
  - unfold has_paramId. rewrite get_paramValue_insert. simpl.
    by apply bool_decide_eq_true.
  - apply no_entry_has in N.
    pose proof (Forall2_take _ _ _ i F1) as Ft.
    clear -Ft N Hl1. revert N.
    induction Ft as [|lj oj ls os Hj _ IH]; intros N; [constructor |].
    apply Forall_cons in N as [Nj N]. constructor; [| by apply IH].
    unfold has_paramId, get_paramValue.
    destruct (decide (lj = l)) as [-> | Hlj].
    + rewrite Hl1 in Hj. injection Hj as <-.
      apply entry_has_false in Nj. done.
    + rewrite lookup_insert_ne by done.
      fold (get_paramValue h1 lj). rewrite Hj. exact Nj.
Qed.

Lemma constructor_copy_shares_entries_witness :
  ∃ m e h1 h2,
    get_model test_model_heap test_model = Some m ∧
    constructor test_props test_model_heap = Some (e, h1) ∧
    getParamValue 2 e h1 = Some "макси" ∧
    caller_sets_value test_model 1 "мини" h1 = Some (tt, h2) ∧
    getParamValue 2 e h2 = Some "мини".
Proof.
  destruct (constructor_copy_shares_entries
              test_model_heap test_props testValues [] 1
              {| paramId := 2; value := "макси" |} "мини")
    as (m & e & h1 & h2 & Gm & E & _ & R1 & Es & R2).
  - vm_compute. reflexivity.
  - reflexivity.
  - apply (bool_decide_unpack _). vm_compute. exact I.
  - by exists m, e, h1, h2.
Defined.
